(** * iron-jump: the physics, collision and scrolling core of src/main.rs

    Shallow embedding of the simulation part of [src/main.rs]: the
    geometry helpers, [Player], [Platform] behind the [GameObject] trait,
    and the [Game] controller with its [EventHandler] callbacks
    ([update], [key_down_event], [key_up_event]).

    Modelling choices:
    - every [f32] is modelled by an exact rational ([Q]); constants keep
      the decimal value written in the source, and [f32::consts::PI] is the
      exact value of the f32 constant (13176795 / 2^22).  Rounding of
      f32 arithmetic is not modelled.
    - [i32] is modelled by [Z] with two's complement wrap-around written out
      (the release-build semantics of [+=]).
    - the ggez context is modelled by the calls made on it: drawing
      records each call ([clear], [graphics::draw], [present]) in a trace,
      and a backend decides which [graphics::draw] or [present] call fails;
      images are opaque names.  [Game::new] is its successful path (the
      loading of the three images is not modelled). *)

From Stdlib Require Import QArith Qabs Qround Lqa ZArith List Lia.
Import ListNotations.

Open Scope Q_scope.

(** ** Constants *)

Definition COLLISION_TOLERANCE : Q := 3.
Definition RECT_TOLERANCE : Q := 1 # 10.
Definition MAX_SPEED : Q := 58 # 10.
Definition SPEED_POWER_UP : Q := 15 # 10.
Definition UP_SPEED : Q := 7.
Definition MAX_FALL_SPEED : Q := - 15.
Definition ACCELERATION : Q := 11 # 10.
Definition DECELERATION : Q := (11 # 10) * (2 # 10).
Definition CHANGE_DIRECTION_SPEED : Q := 3.
Definition MAX_SPEEDUP_COUNT : Z := (60 * 6)%Z.

Definition SCREEN_WIDTH : Q := 480.
Definition SCREEN_HEIGHT : Q := 320.
Definition TILE_SIZE : Q := 32.

(** [f32::consts::PI] as an f32: 0x40490FDB. *)
Definition F32_PI : Q := 13176795 # 4194304.

(** ** Machine integers: [i32] with wrap-around *)

Definition i32_wrap (z : Z) : Z :=
  (Z.modulo (z + 2 ^ 31) (2 ^ 32) - 2 ^ 31)%Z.

Definition i32_add (a b : Z) : Z := i32_wrap (a + b).

Definition I32_MAX : Z := (2 ^ 31 - 1)%Z.

(** ** f32 helpers *)

(** [f32::max] and [f32::min] (no NaN in the model). *)
Definition f32_max (a b : Q) : Q := if Qlt_le_dec a b then b else a.
Definition f32_min (a b : Q) : Q := if Qlt_le_dec b a then b else a.

(** ** [na::Vector2<f32>] *)

Module Vec2.
Record t : Type := new { x : Q; y : Q }.
End Vec2.

(** ** [ggez::graphics::Rect] *)

Module Rect.
Record t : Type := new { x : Q; y : Q; w : Q; h : Q }.
Definition zero : t := new 0 0 0 0.
Definition left (r : t) : Q := x r.
Definition right (r : t) : Q := x r + w r.
Definition top (r : t) : Q := y r.
Definition bottom (r : t) : Q := y r + h r.
End Rect.

(** [fn rect_intersection(a: Rect, b: Rect) -> Rect] *)
Definition rect_intersection (a b : Rect.t) : Rect.t :=
  let x := f32_max (Rect.left a) (Rect.left b) in
  let y := f32_max (Rect.top a) (Rect.top b) in
  let width := f32_min (Rect.right a) (Rect.right b) - x in
  let height := f32_min (Rect.bottom a) (Rect.bottom b) - y in
  let intersection := Rect.new x y width height in
  if Qlt_le_dec (Rect.w intersection) RECT_TOLERANCE then Rect.zero
  else if Qlt_le_dec (Rect.h intersection) RECT_TOLERANCE then Rect.zero
  else intersection.

(** [fn rect_is_empty_with_tolerance(a: Rect) -> bool] *)
Definition rect_is_empty_with_tolerance (a : Rect.t) : bool :=
  if Qlt_le_dec (Rect.w a) RECT_TOLERANCE then true
  else if Qlt_le_dec (Rect.h a) RECT_TOLERANCE then true
  else false.

(** ** [trait GameObject] (the drawing method is not modelled) *)

Module GameObject.
Class t (T : Type) : Type := {
  move_world : T -> Q -> Q -> T;
  update : T -> T;
  is_platform : T -> bool;
  rect : T -> Rect.t
}.
End GameObject.

(** ** [struct Player] *)

Module Player.
Record t : Type := mk {
  x : Q;
  y : Q;
  move_x : Q;
  move_y : Q;
  jumping : bool;
  alpha : Q;
  rotation : Q;
  speed_up_counter : Z
}.

(** [Player::new] *)
Definition new (x y : Q) : t := mk x y 0 0 false 1 0 0.

Definition set_move_x (p : t) (v : Q) : t :=
  mk (x p) (y p) v (move_y p) (jumping p) (alpha p) (rotation p) (speed_up_counter p).
Definition set_move_y (p : t) (v : Q) : t :=
  mk (x p) (y p) (move_x p) v (jumping p) (alpha p) (rotation p) (speed_up_counter p).
Definition set_jumping (p : t) (b : bool) : t :=
  mk (x p) (y p) (move_x p) (move_y p) b (alpha p) (rotation p) (speed_up_counter p).
Definition set_alpha (p : t) (v : Q) : t :=
  mk (x p) (y p) (move_x p) (move_y p) (jumping p) v (rotation p) (speed_up_counter p).
Definition set_rotation (p : t) (v : Q) : t :=
  mk (x p) (y p) (move_x p) (move_y p) (jumping p) (alpha p) v (speed_up_counter p).
Definition set_speed_up_counter (p : t) (c : Z) : t :=
  mk (x p) (y p) (move_x p) (move_y p) (jumping p) (alpha p) (rotation p) c.

(** [update_from_input], split into the consecutive blocks of its body. *)

(** lines 91-96: speed-boost decay *)
Definition speed_up_step (p : t) : t :=
  if (0 <? speed_up_counter p)%Z then
    let c := i32_add (speed_up_counter p) 1 in
    if (MAX_SPEEDUP_COUNT <? c)%Z then set_speed_up_counter p 0
    else set_speed_up_counter p c
  else p.

(** line 98 *)
Definition current_max_speed (p : t) : Q :=
  if (0 <? speed_up_counter p)%Z then MAX_SPEED * SPEED_POWER_UP else MAX_SPEED.

(** lines 100-120: horizontal acceleration; the boolean is
    [move_left_or_right]. *)
Definition horizontal_step (current_max_speed : Q) (input : Vec2.t) (p : t)
  : t * bool :=
  if Qlt_le_dec (Vec2.x input) 0 then
    let m1 := if Qlt_le_dec (move_x p) 0
              then move_x p + Qabs (Vec2.x input) * ACCELERATION * CHANGE_DIRECTION_SPEED
              else move_x p in
    let m2 := m1 + Qabs (Vec2.x input) * ACCELERATION in
    let m3 := if Qlt_le_dec current_max_speed m2 then current_max_speed else m2 in
    (set_move_x p m3, true)
  else if Qlt_le_dec 0 (Vec2.x input) then
    let m1 := if Qlt_le_dec 0 (move_x p)
              then move_x p - Qabs (Vec2.x input) * ACCELERATION * CHANGE_DIRECTION_SPEED
              else move_x p in
    let m2 := m1 - Qabs (Vec2.x input) * ACCELERATION in
    let m3 := if Qlt_le_dec m2 (- current_max_speed) then - current_max_speed else m2 in
    (set_move_x p m3, true)
  else (p, false).

(** lines 122-127: jump *)
Definition jump_step (input : Vec2.t) (p : t) : t :=
  if jumping p then p
  else if Qlt_le_dec 0 (Vec2.y input) then
    let p1 := if Qlt_le_dec (move_y p) UP_SPEED then set_move_y p UP_SPEED else p in
    set_jumping p1 true
  else p.

(** lines 129-139: deceleration without horizontal input *)
Definition decel_step (move_left_or_right : bool) (p : t) : t :=
  if move_left_or_right then p
  else if Qlt_le_dec (Qabs (move_x p)) DECELERATION then set_move_x p 0
  else if Qlt_le_dec 0 (move_x p) then set_move_x p (move_x p - DECELERATION)
  else if Qlt_le_dec (move_x p) 0 then set_move_x p (move_x p + DECELERATION)
  else p.

(** lines 141-145: gravity *)
Definition gravity_step (p : t) : t :=
  let m := move_y p - DECELERATION in
  let m' := if Qlt_le_dec m MAX_FALL_SPEED then MAX_FALL_SPEED else m in
  set_jumping (set_move_y p m') true.

(** lines 147-150: cosmetic phase *)
Definition alpha_step (p : t) : t :=
  let a := alpha p + (7 # 100) in
  set_alpha p (if Qlt_le_dec F32_PI a then a - F32_PI else a).

(** [fn update_from_input(&mut self, input_acceleration)] *)
Definition update_from_input (p : t) (input_acceleration : Vec2.t) : t :=
  let p1 := speed_up_step p in
  let cms := current_max_speed p1 in
  let '(p2, move_left_or_right) := horizontal_step cms input_acceleration p1 in
  let p3 := jump_step input_acceleration p2 in
  let p4 := decel_step move_left_or_right p3 in
  alpha_step (gravity_step p4).

(** [fn update_after_collision(&mut self)] *)
Definition update_after_collision (p : t) : t :=
  let unit_velocity := move_x p / (TILE_SIZE / 2) in
  set_rotation p (rotation p - unit_velocity * (55 # 100)).

(** [fn rect(&self) -> Rect] *)
Definition rect (p : t) : Rect.t := Rect.new (x p) (y p) TILE_SIZE TILE_SIZE.
End Player.

(** ** [struct Platform] and [impl GameObject for Platform] *)

Module Platform.
Record t : Type := mk {
  x : Q;
  y : Q;
  width_segments : Z;
  height_segments : Z
}.

Definition move_world (p : t) (offset_x offset_y : Q) : t :=
  mk (x p + offset_x) (y p + offset_y) (width_segments p) (height_segments p).

Definition update (p : t) : t := p.

Definition is_platform (_ : t) : bool := true.

Definition rect (p : t) : Rect.t :=
  Rect.new (x p) (y p)
    (inject_Z (width_segments p) * TILE_SIZE)
    (inject_Z (height_segments p) * TILE_SIZE).
End Platform.

#[export] Instance Platform_GameObject : GameObject.t Platform.t := {
  move_world := Platform.move_world;
  update := Platform.update;
  is_platform := Platform.is_platform;
  rect := Platform.rect
}.

(** ** [struct Game] (the three images are not modelled) *)

Module Game.
Record t : Type := mk {
  player : Player.t;
  game_objects : list Platform.t;
  input_acceleration : Vec2.t;
  background_offset : Vec2.t
}.

Definition set_player (g : t) (p : Player.t) : t :=
  mk p (game_objects g) (input_acceleration g) (background_offset g).
Definition set_game_objects (g : t) (os : list Platform.t) : t :=
  mk (player g) os (input_acceleration g) (background_offset g).
Definition set_input_acceleration (g : t) (v : Vec2.t) : t :=
  mk (player g) (game_objects g) v (background_offset g).

(** [pub fn move_world(&mut self, x: f32, y: f32)] *)
Definition move_world (g : t) (x y : Q) : t :=
  mk (player g)
     (map (fun o => GameObject.move_world o x y) (game_objects g))
     (input_acceleration g)
     (Vec2.new (Vec2.x (background_offset g) + x * (25 # 100))
               (Vec2.y (background_offset g) + y * (25 # 100))).

(** [Game::new], successful path. *)
Definition new : t :=
  let game_objects :=
    [ Platform.mk 256 512 11 5;
      Platform.mk 768 512 10 5;
      Platform.mk 1216 512 9 5 ] in
  let player_x : Q := 384 in
  let player_y : Q := 480 in
  let center_x := SCREEN_WIDTH / 2 - TILE_SIZE / 2 in
  let center_y := SCREEN_HEIGHT / 2 - TILE_SIZE / 2 in
  let player := Player.new center_x center_y in
  let input_acceleration := Vec2.new 0 0 in
  let background_offset := Vec2.new 0 0 in
  let game := mk player game_objects input_acceleration background_offset in
  move_world game (center_x - player_x) (center_y - player_y).

(** Body of the loop of [collision_left_right]; the accumulator is
    [(is_colliding, offset_x)].  The player is not mutated in the loop. *)
Definition left_right_body (pl : Player.t) (acc : bool * Q) (platform : Platform.t)
  : bool * Q :=
  if GameObject.is_platform platform then
    let intersection := rect_intersection (GameObject.rect platform) (Player.rect pl) in
    if rect_is_empty_with_tolerance intersection then acc
    else if Qlt_le_dec (Rect.left (Player.rect pl)) (Rect.left (GameObject.rect platform))
    then (true, Rect.w intersection)
    else if Qlt_le_dec (Rect.right (GameObject.rect platform)) (Rect.right (Player.rect pl))
    then (true, - Rect.w intersection)
    else acc
  else acc.

(** [fn collision_left_right(&mut self)] *)
Definition collision_left_right (g : t) : t :=
  let '(is_colliding, offset_x) :=
    fold_left (left_right_body (player g)) (game_objects g) (false, 0) in
  if is_colliding then
    let g1 := move_world g offset_x 0 in
    set_player g1 (Player.set_move_x (player g1) 0)
  else g.

(** Body of the loop of [collision_up_down]; the accumulator is
    [(is_colliding, offset_y, self.player)], since the loop mutates
    [self.player.move_y] and [self.player.jumping]. *)
Definition up_down_body (acc : bool * Q * Player.t) (platform : Platform.t)
  : bool * Q * Player.t :=
  let '(is_colliding, offset_y, pl) := acc in
  if GameObject.is_platform platform then
    let intersection := rect_intersection (GameObject.rect platform) (Player.rect pl) in
    if rect_is_empty_with_tolerance intersection then acc
    else if Qlt_le_dec (Rect.bottom (GameObject.rect platform)) (Rect.bottom (Player.rect pl))
    then
      let pl1 := if Qlt_le_dec 0 (Player.move_y pl) then Player.set_move_y pl 0 else pl in
      (true, - Rect.h intersection, pl1)
    else if Qlt_le_dec (Player.move_y pl) 0 then
      if Qlt_le_dec (Rect.bottom (Player.rect pl) - COLLISION_TOLERANCE + Player.move_y pl)
                    (Rect.top (GameObject.rect platform))
      then (true, Rect.h intersection,
            Player.set_jumping (Player.set_move_y pl 0) false)
      else acc
    else if Qlt_le_dec (Rect.bottom (Player.rect pl) - COLLISION_TOLERANCE + Player.move_y pl)
                       (Rect.top (GameObject.rect platform))
    then (true, Rect.h intersection, Player.set_jumping pl false)
    else acc
  else acc.

(** [fn collision_up_down(&mut self)] *)
Definition collision_up_down (g : t) : t :=
  let '(is_colliding, offset_y, pl) :=
    fold_left up_down_body (game_objects g) (false, 0, player g) in
  let g1 := set_player g pl in
  if is_colliding then move_world g1 0 offset_y else g1.

(** [fn update(&mut self, _ctx)] of [impl EventHandler for Game] *)
Definition update (g : t) : t :=
  let g1 := set_game_objects g (map GameObject.update (game_objects g)) in
  let g2 := set_player g1 (Player.update_from_input (player g1) (input_acceleration g1)) in
  let g3 := move_world g2 (Player.move_x (player g2)) 0 in
  let g4 := collision_left_right g3 in
  let g5 := move_world g4 0 (Player.move_y (player g4)) in
  let g6 := collision_up_down g5 in
  set_player g6 (Player.update_after_collision (player g6)).

Inductive KeyCode : Type := Left | Right | Up | Other.

(** [fn key_down_event] *)
Definition key_down_event (g : t) (keycode : KeyCode) : t :=
  let ia := input_acceleration g in
  match keycode with
  | Left => set_input_acceleration g (Vec2.new (-1) (Vec2.y ia))
  | Right => set_input_acceleration g (Vec2.new 1 (Vec2.y ia))
  | Up => set_input_acceleration g (Vec2.new (Vec2.x ia) 1)
  | Other => g
  end.

(** [fn key_up_event] *)
Definition key_up_event (g : t) (keycode : KeyCode) : t :=
  let ia := input_acceleration g in
  match keycode with
  | Left => set_input_acceleration g (Vec2.new 0 (Vec2.y ia))
  | Right => set_input_acceleration g (Vec2.new 0 (Vec2.y ia))
  | Up => set_input_acceleration g (Vec2.new (Vec2.x ia) 0)
  | Other => g
  end.

(** States reachable from [Game::new] through the event handler. *)
Inductive reachable : t -> Prop :=
| reachable_new : reachable new
| reachable_update : forall g, reachable g -> reachable (update g)
| reachable_key_down : forall g k, reachable g -> reachable (key_down_event g k)
| reachable_key_up : forall g k, reachable g -> reachable (key_up_event g k).
End Game.

(** ** Drawing on the ggez context *)

(** [f32::trunc] *)
Definition f32_trunc (q : Q) : Z :=
  if Qlt_le_dec q 0 then (- Qfloor (- q))%Z else Qfloor q.

(** [a % b] on [f32]: [a - (a / b).trunc() * b], the sign of the dividend. *)
Definition f32_rem (a b : Q) : Q := a - inject_Z (f32_trunc (a / b)) * b.

(** [q as i32]: truncation, saturating at the bounds of [i32]. *)
Definition f32_as_i32 (q : Q) : Z :=
  Z.max (- 2 ^ 31) (Z.min (2 ^ 31 - 1) (f32_trunc q)).

Module Draw.
Inductive Image : Type := PlayerImage | PlatformImage | BackgroundImage.

(** The fields of [graphics::DrawParam] the program sets. *)
Record DrawParam : Type := mkParam {
  dest : Q * Q;
  rotation : Q;
  offset : Q * Q
}.

(** [DrawParam::default().dest(p)], which a [(Point2,)] converts to. *)
Definition default_param (dest : Q * Q) : DrawParam := mkParam dest 0 (0, 0).

Inductive Call : Type :=
| Clear
| DrawImage (image : Image) (param : DrawParam)
| Present.

(** A computation on the context: given the backend, which tells whether a
    call succeeds, it extends the trace of calls made and returns [Some] for
    [Ok] and [None] for [Err]. *)
Definition M (A : Type) : Type := (Call -> bool) -> list Call -> option A * list Call.

Definition ret {A} (a : A) : M A := fun _ tr => (Some a, tr).

(** [?]: an [Err] stops the computation. *)
Definition bind {A B} (m : M A) (k : A -> M B) : M B :=
  fun ok tr =>
    match m ok tr with
    | (Some a, tr') => k a ok tr'
    | (None, tr') => (None, tr')
    end.

(** A call returning [GameResult<()>]: [graphics::draw], [graphics::present]. *)
Definition call (c : Call) : M unit :=
  fun ok tr => (if ok c then Some tt else None, tr ++ [c]).

(** [graphics::clear], which returns [()]. *)
Definition clear : M unit := fun _ tr => (Some tt, tr ++ [Clear]).

(** A [for] loop whose body ends in [?]. *)
Fixpoint for_each {A} (l : list A) (body : A -> M unit) : M unit :=
  match l with
  | [] => ret tt
  | a :: l' => bind (body a) (fun _ => for_each l' body)
  end.

(** [0..n] on [i32]: empty when [n <= 0]. *)
Definition range (n : Z) : list Z := map Z.of_nat (seq 0 (Z.to_nat n)).
End Draw.

Module GameDraw.
Import Draw.

(** [pub fn draw_tiles(&self, ctx, image, x, y, width_segments, height_segments)] *)
Definition draw_tiles (image : Image) (x y : Q) (width_segments height_segments : Z)
  : M unit :=
  bind
    (for_each (range height_segments) (fun iy =>
       for_each (range width_segments) (fun ix =>
         call (DrawImage image
                 (default_param (x + inject_Z ix * TILE_SIZE, y + inject_Z iy * TILE_SIZE))))))
    (fun _ => ret tt).

(** [fn draw_background(&mut self, ctx)] *)
Definition draw_background (g : Game.t) : M unit :=
  let bg := Game.background_offset g in
  let offset := Vec2.new (f32_rem (Vec2.x bg) TILE_SIZE - TILE_SIZE)
                         (f32_rem (Vec2.y bg) TILE_SIZE - TILE_SIZE) in
  draw_tiles BackgroundImage (Vec2.x offset) (Vec2.y offset)
    (i32_add (Z.quot (f32_as_i32 SCREEN_WIDTH) (f32_as_i32 TILE_SIZE)) 3)
    (i32_add (Z.quot (f32_as_i32 SCREEN_HEIGHT) (f32_as_i32 TILE_SIZE)) 2).

(** [Player::draw] *)
Definition player_draw (p : Player.t) : M unit :=
  call (DrawImage PlayerImage
          (mkParam (Player.x p + TILE_SIZE / 2, Player.y p + TILE_SIZE / 2)
                   (Player.rotation p) (1 # 2, 1 # 2))).

(** [fn draw] of [trait GameObject]. *)
Class GameObjectDraw (T : Type) : Type := { draw : T -> M unit }.

(** [fn draw] of [impl GameObject for Platform] *)
Definition platform_draw (p : Platform.t) : M unit :=
  draw_tiles PlatformImage (Platform.x p) (Platform.y p)
    (Platform.width_segments p) (Platform.height_segments p).

#[export] Instance Platform_GameObjectDraw : GameObjectDraw Platform.t := {
  draw := platform_draw
}.

(** [fn draw(&mut self, ctx)] of [impl EventHandler for Game] *)
Definition game_draw (g : Game.t) : M unit :=
  bind clear (fun _ =>
  bind (draw_background g) (fun _ =>
  bind (for_each (Game.game_objects g) (fun o => draw o)) (fun _ =>
  bind (player_draw (Game.player g)) (fun _ =>
  call Present)))).
End GameDraw.

(** * Specification-side notions *)

(** Two rectangles with no common interior, along one axis or the other. *)
Definition rect_disjoint (a b : Rect.t) : Prop :=
  Rect.right a <= Rect.left b \/ Rect.right b <= Rect.left a \/
  Rect.bottom a <= Rect.top b \/ Rect.bottom b <= Rect.top a.

(** Equality of rectangles as values (field-wise equality of the numbers). *)
Definition rect_eqv (a b : Rect.t) : Prop :=
  Rect.x a == Rect.x b /\ Rect.y a == Rect.y b /\
  Rect.w a == Rect.w b /\ Rect.h a == Rect.h b.

(** * Proof automation *)

(** Case analysis on every comparison and boolean test of the goal. *)
Ltac split_ifs :=
  repeat match goal with
  | |- context [Qlt_le_dec ?a ?b] => destruct (Qlt_le_dec a b)
  | |- context [Z.ltb ?a ?b] => destruct (Z.ltb a b)
  | |- context [if ?b then _ else _] => destruct b
  | H : context [Qlt_le_dec ?a ?b] |- _ => destruct (Qlt_le_dec a b)
  end.

(** * Frame lemmas for the steps of [update_from_input] *)

Module PlayerFacts.
Import Player.

Lemma speed_up_step_fields p :
  x (speed_up_step p) = x p /\ y (speed_up_step p) = y p /\
  move_x (speed_up_step p) = move_x p /\ move_y (speed_up_step p) = move_y p /\
  jumping (speed_up_step p) = jumping p.
Proof. unfold speed_up_step; split_ifs; repeat split. Qed.

Lemma current_max_speed_ge p : MAX_SPEED <= current_max_speed p.
Proof.
  unfold current_max_speed, MAX_SPEED, SPEED_POWER_UP; split_ifs; lra.
Qed.

Lemma horizontal_step_fields c i p :
  x (fst (horizontal_step c i p)) = x p /\ y (fst (horizontal_step c i p)) = y p /\
  move_y (fst (horizontal_step c i p)) = move_y p /\
  jumping (fst (horizontal_step c i p)) = jumping p /\
  speed_up_counter (fst (horizontal_step c i p)) = speed_up_counter p.
Proof. unfold horizontal_step; split_ifs; repeat split. Qed.

(** [horizontal_step] only reads the x component of the input. *)
Lemma horizontal_step_input_x c i yy p :
  horizontal_step c i p = horizontal_step c (Vec2.new (Vec2.x i) yy) p.
Proof. reflexivity. Qed.

Lemma horizontal_step_none c i p :
  Vec2.x i == 0 -> horizontal_step c i p = (p, false).
Proof.
  intro H; unfold horizontal_step;
    destruct (Qlt_le_dec (Vec2.x i) 0); [lra|];
    destruct (Qlt_le_dec 0 (Vec2.x i)); [lra|reflexivity].
Qed.

Lemma jump_step_fields i p :
  x (jump_step i p) = x p /\ y (jump_step i p) = y p /\
  move_x (jump_step i p) = move_x p /\
  speed_up_counter (jump_step i p) = speed_up_counter p.
Proof. unfold jump_step; split_ifs; repeat split. Qed.

Lemma decel_step_fields b p :
  x (decel_step b p) = x p /\ y (decel_step b p) = y p /\
  move_y (decel_step b p) = move_y p /\
  jumping (decel_step b p) = jumping p /\
  speed_up_counter (decel_step b p) = speed_up_counter p.
Proof. unfold decel_step; split_ifs; repeat split. Qed.

Lemma gravity_step_fields p :
  x (gravity_step p) = x p /\ y (gravity_step p) = y p /\
  move_x (gravity_step p) = move_x p /\
  speed_up_counter (gravity_step p) = speed_up_counter p.
Proof. unfold gravity_step; split_ifs; repeat split. Qed.

Lemma alpha_step_fields p :
  x (alpha_step p) = x p /\ y (alpha_step p) = y p /\
  move_x (alpha_step p) = move_x p /\ move_y (alpha_step p) = move_y p /\
  jumping (alpha_step p) = jumping p /\
  speed_up_counter (alpha_step p) = speed_up_counter p.
Proof. unfold alpha_step; split_ifs; repeat split. Qed.

(** [update_from_input] as the pipeline of its steps, with the
    [move_left_or_right] flag exposed. *)
Lemma update_from_input_unfold p i :
  update_from_input p i =
  let p1 := speed_up_step p in
  let hs := horizontal_step (current_max_speed p1) i p1 in
  alpha_step (gravity_step (decel_step (snd hs) (jump_step i (fst hs)))).
Proof.
  unfold update_from_input; simpl.
  destruct (horizontal_step _ i _); reflexivity.
Qed.

Lemma update_from_input_xy p i :
  x (update_from_input p i) = x p /\ y (update_from_input p i) = y p.
Proof.
  rewrite update_from_input_unfold; cbv zeta.
  destruct (speed_up_step_fields p) as (X1 & Y1 & _).
  set (p1 := speed_up_step p) in *.
  destruct (horizontal_step_fields (current_max_speed p1) i p1) as (X2 & Y2 & _).
  set (p2 := fst (horizontal_step _ i p1)) in *.
  destruct (jump_step_fields i p2) as (X3 & Y3 & _).
  destruct (decel_step_fields (snd (horizontal_step (current_max_speed p1) i p1))
              (jump_step i p2)) as (X4 & Y4 & _).
  destruct (gravity_step_fields (decel_step (snd (horizontal_step (current_max_speed p1) i p1))
              (jump_step i p2))) as (X5 & Y5 & _).
  destruct (alpha_step_fields (gravity_step (decel_step (snd (horizontal_step (current_max_speed p1) i p1))
              (jump_step i p2)))) as (X6 & Y6 & _).
  split; congruence.
Qed.

Lemma update_after_collision_fields p :
  x (update_after_collision p) = x p /\ y (update_after_collision p) = y p /\
  move_x (update_after_collision p) = move_x p /\
  move_y (update_after_collision p) = move_y p /\
  jumping (update_after_collision p) = jumping p /\
  speed_up_counter (update_after_collision p) = speed_up_counter p.
Proof. repeat split. Qed.

(** Single-field forms of the lemmas above, for rewriting. *)
Lemma alpha_step_move_x p : move_x (alpha_step p) = move_x p.
Proof. apply alpha_step_fields. Qed.
Lemma alpha_step_move_y p : move_y (alpha_step p) = move_y p.
Proof. apply alpha_step_fields. Qed.
Lemma alpha_step_jumping p : jumping (alpha_step p) = jumping p.
Proof. apply alpha_step_fields. Qed.
Lemma alpha_step_counter p : speed_up_counter (alpha_step p) = speed_up_counter p.
Proof. apply alpha_step_fields. Qed.
Lemma gravity_step_move_x p : move_x (gravity_step p) = move_x p.
Proof. apply gravity_step_fields. Qed.
Lemma gravity_step_counter p : speed_up_counter (gravity_step p) = speed_up_counter p.
Proof. apply gravity_step_fields. Qed.
Lemma jump_step_move_x i p : move_x (jump_step i p) = move_x p.
Proof. apply jump_step_fields. Qed.
Lemma jump_step_counter i p : speed_up_counter (jump_step i p) = speed_up_counter p.
Proof. apply jump_step_fields. Qed.
Lemma decel_step_move_y b p : move_y (decel_step b p) = move_y p.
Proof. apply decel_step_fields. Qed.
Lemma decel_step_counter b p : speed_up_counter (decel_step b p) = speed_up_counter p.
Proof. apply decel_step_fields. Qed.

(** The value lines 129-139 give to [move_x] when there is no
    horizontal input. *)
Definition decel_x (m : Q) : Q :=
  if Qlt_le_dec (Qabs m) DECELERATION then 0
  else if Qlt_le_dec 0 m then m - DECELERATION
  else if Qlt_le_dec m 0 then m + DECELERATION
  else m.

Lemma decel_step_move_x b p :
  move_x (decel_step b p) = if b then move_x p else decel_x (move_x p).
Proof. destruct b; [reflexivity|]. unfold decel_step, decel_x; split_ifs; reflexivity. Qed.

(** The value lines 141-144 give to [move_y]. *)
Definition gravity_y (m : Q) : Q :=
  if Qlt_le_dec (m - DECELERATION) MAX_FALL_SPEED then MAX_FALL_SPEED
  else m - DECELERATION.

Lemma gravity_step_move_y p : move_y (gravity_step p) = gravity_y (move_y p).
Proof. reflexivity. Qed.

Lemma gravity_step_jumping p : jumping (gravity_step p) = true.
Proof. reflexivity. Qed.

Lemma update_from_input_move_x p i :
  move_x (update_from_input p i) =
  let p1 := speed_up_step p in
  let hs := horizontal_step (current_max_speed p1) i p1 in
  if snd hs then move_x (fst hs) else decel_x (move_x (fst hs)).
Proof.
  rewrite update_from_input_unfold; cbv zeta.
  rewrite alpha_step_move_x, gravity_step_move_x, decel_step_move_x, jump_step_move_x.
  reflexivity.
Qed.

Lemma update_from_input_move_y p i :
  move_y (update_from_input p i) =
  let p1 := speed_up_step p in
  let hs := horizontal_step (current_max_speed p1) i p1 in
  gravity_y (move_y (jump_step i (fst hs))).
Proof.
  rewrite update_from_input_unfold; cbv zeta.
  rewrite alpha_step_move_y, gravity_step_move_y, decel_step_move_y.
  reflexivity.
Qed.

Lemma update_from_input_jumping p i : jumping (update_from_input p i) = true.
Proof.
  rewrite update_from_input_unfold; cbv zeta.
  rewrite alpha_step_jumping; apply gravity_step_jumping.
Qed.

Lemma update_from_input_counter p i :
  speed_up_counter (update_from_input p i) = speed_up_counter (speed_up_step p).
Proof.
  rewrite update_from_input_unfold; cbv zeta.
  rewrite alpha_step_counter, gravity_step_counter, decel_step_counter, jump_step_counter.
  apply horizontal_step_fields.
Qed.
End PlayerFacts.

(** * Frame lemmas for the [Game] operations *)

Module GameFacts.
Import Game.

Lemma move_world_player g a b : player (move_world g a b) = player g.
Proof. reflexivity. Qed.

Lemma move_world_input g a b :
  input_acceleration (move_world g a b) = input_acceleration g.
Proof. reflexivity. Qed.

(** [collision_left_right] leaves the player as it is, or only zeroes
    [move_x]. *)
Lemma collision_left_right_player g :
  player (collision_left_right g) = player g \/
  player (collision_left_right g) = Player.set_move_x (player g) 0.
Proof.
  unfold collision_left_right.
  destruct (fold_left _ _ _) as [[|] off]; [right|left]; reflexivity.
Qed.

Lemma up_down_body_player acc o :
  let pl := snd acc in
  let pl' := snd (up_down_body acc o) in
  Player.x pl' = Player.x pl /\ Player.y pl' = Player.y pl /\
  Player.move_x pl' = Player.move_x pl /\
  Player.speed_up_counter pl' = Player.speed_up_counter pl.
Proof.
  destruct acc as [[c off] pl]; unfold up_down_body; simpl.
  split_ifs; simpl; repeat split.
Qed.

Lemma up_down_fold_player os acc :
  let pl := snd acc in
  let pl' := snd (fold_left up_down_body os acc) in
  Player.x pl' = Player.x pl /\ Player.y pl' = Player.y pl /\
  Player.move_x pl' = Player.move_x pl /\
  Player.speed_up_counter pl' = Player.speed_up_counter pl.
Proof.
  revert acc; induction os as [|o os IH]; intro acc; simpl.
  - repeat split.
  - destruct (IH (up_down_body acc o)) as (H1 & H2 & H3 & H4).
    destruct (up_down_body_player acc o) as (K1 & K2 & K3 & K4).
    repeat split; congruence.
Qed.

Lemma collision_up_down_player g :
  let pl := player g in
  let pl' := player (collision_up_down g) in
  Player.x pl' = Player.x pl /\ Player.y pl' = Player.y pl /\
  Player.move_x pl' = Player.move_x pl /\
  Player.speed_up_counter pl' = Player.speed_up_counter pl.
Proof.
  unfold collision_up_down.
  pose proof (up_down_fold_player (game_objects g) (false, 0, player g)) as H.
  destruct (fold_left up_down_body (game_objects g) (false, 0, player g))
    as [[c off] pl] eqn:E.
  simpl in H; destruct c; exact H.
Qed.

(** The phases of one frame, named. *)
Definition phase_input (g : t) : t :=
  let g1 := set_game_objects g (map GameObject.update (game_objects g)) in
  set_player g1 (Player.update_from_input (player g1) (input_acceleration g1)).

Lemma update_phases g :
  update g =
  let g2 := phase_input g in
  let g4 := collision_left_right (move_world g2 (Player.move_x (player g2)) 0) in
  let g6 := collision_up_down (move_world g4 0 (Player.move_y (player g4))) in
  set_player g6 (Player.update_after_collision (player g6)).
Proof. reflexivity. Qed.

Lemma update_player_xy g :
  Player.x (player (update g)) = Player.x (player g) /\
  Player.y (player (update g)) = Player.y (player g).
Proof.
  rewrite update_phases; cbv zeta.
  destruct (PlayerFacts.update_from_input_xy (player g) (input_acceleration g)) as [X1 Y1].
  set (g2 := phase_input g).
  assert (E2 : player g2 = Player.update_from_input (player g) (input_acceleration g))
    by reflexivity.
  set (g4 := collision_left_right (move_world g2 (Player.move_x (player g2)) 0)).
  assert (X4 : Player.x (player g4) = Player.x (player g) /\
               Player.y (player g4) = Player.y (player g)).
  { unfold g4; destruct (collision_left_right_player (move_world g2 (Player.move_x (player g2)) 0))
      as [E|E]; rewrite E; cbn [Player.x Player.y Player.set_move_x];
    rewrite move_world_player, E2; split; assumption. }
  destruct (collision_up_down_player (move_world g4 0 (Player.move_y (player g4))))
    as (X6 & Y6 & _).
  simpl in X6, Y6.
  unfold set_player; cbn [player].
  destruct (PlayerFacts.update_after_collision_fields
              (player (collision_up_down (move_world g4 0 (Player.move_y (player g4))))))
    as (Xa & Ya & _).
  rewrite Xa, Ya, X6, Y6; exact X4.
Qed.

(** What one frame does to [move_x] and [speed_up_counter]: the values
    [update_from_input] gives them, except that a horizontal collision
    zeroes [move_x]. *)
Lemma update_player_speed g :
  let p' := Player.update_from_input (player g) (input_acceleration g) in
  Player.speed_up_counter (player (update g)) = Player.speed_up_counter p' /\
  (Player.move_x (player (update g)) = Player.move_x p' \/
   Player.move_x (player (update g)) = 0).
Proof.
  cbv zeta; rewrite update_phases; cbv zeta.
  set (g2 := phase_input g).
  assert (E2 : player g2 = Player.update_from_input (player g) (input_acceleration g))
    by reflexivity.
  set (g4 := collision_left_right (move_world g2 (Player.move_x (player g2)) 0)).
  assert (X4 : Player.speed_up_counter (player g4) = Player.speed_up_counter (player g2) /\
               (Player.move_x (player g4) = Player.move_x (player g2) \/
                Player.move_x (player g4) = 0)).
  { unfold g4; destruct (collision_left_right_player (move_world g2 (Player.move_x (player g2)) 0))
      as [E|E]; rewrite E; cbn [Player.move_x Player.speed_up_counter Player.set_move_x];
      rewrite move_world_player; auto. }
  destruct (collision_up_down_player (move_world g4 0 (Player.move_y (player g4))))
    as (_ & _ & M6 & C6).
  simpl in M6, C6.
  unfold set_player; cbn [player].
  destruct (PlayerFacts.update_after_collision_fields
              (player (collision_up_down (move_world g4 0 (Player.move_y (player g4))))))
    as (_ & _ & Ma & _ & _ & Ca).
  rewrite Ma, Ca, M6, C6, <- E2; exact X4.
Qed.

Lemma key_down_event_player g k : player (key_down_event g k) = player g.
Proof. destruct k; reflexivity. Qed.

Lemma key_up_event_player g k : player (key_up_event g k) = player g.
Proof. destruct k; reflexivity. Qed.
End GameFacts.

(** * Claims *)

(** ** C9 *)

(** C9: [Game::move_world(x, y)] adds exactly [(x, y)] to the position of
    every game object (keeping its size), adds exactly [(x * 0.25, y * 0.25)]
    to [background_offset], and leaves the player as it is; hence a whole
    frame [Game::update] leaves [player.x] and [player.y] unchanged. *)
Theorem move_world_shifts_world_not_player : forall (g : Game.t) (x y : Q),
  Game.player (Game.move_world g x y) = Game.player g /\
  Forall2 (fun o o' =>
             Platform.x o' = Platform.x o + x /\ Platform.y o' = Platform.y o + y /\
             Platform.width_segments o' = Platform.width_segments o /\
             Platform.height_segments o' = Platform.height_segments o)
          (Game.game_objects g) (Game.game_objects (Game.move_world g x y)) /\
  Vec2.x (Game.background_offset (Game.move_world g x y)) =
    Vec2.x (Game.background_offset g) + x * (25 # 100) /\
  Vec2.y (Game.background_offset (Game.move_world g x y)) =
    Vec2.y (Game.background_offset g) + y * (25 # 100) /\
  Player.x (Game.player (Game.update g)) = Player.x (Game.player g) /\
  Player.y (Game.player (Game.update g)) = Player.y (Game.player g).
Proof.
  intros g x y.
  destruct (GameFacts.update_player_xy g) as [HX HY].
  repeat split; try assumption.
  simpl; induction (Game.game_objects g) as [|o os IH]; simpl; constructor;
    [repeat split | exact IH].
Qed.

(** ** C1 *)

(** C1 (as stated, refuted): from the player at rest, one call with
    [input_acceleration.x = -1] does not give [move_x = -ACCELERATION]: it
    gives [+1.1]. *)
Lemma update_from_input_left_from_rest_cex :
  ~ (Player.move_x (Player.update_from_input (Player.new 224 144) (Vec2.new (-1) 0))
     == - ACCELERATION).
Proof. vm_compute. intro H; discriminate H. Qed.

(** C1 (amended): from rest ([move_x = 0]), one call of [update_from_input]
    with [input_acceleration.x = -1] sets [move_x] to [+ACCELERATION = 1.1]:
    under the move-the-world convention a leftward input makes [move_x]
    positive, whatever the other fields and the vertical input. *)
Theorem update_from_input_left_from_rest : forall (p : Player.t) (i : Vec2.t),
  Player.move_x p == 0 -> Vec2.x i == -1 ->
  Player.move_x (Player.update_from_input p i) == ACCELERATION.
Proof.
  intros p i H0 Hx.
  rewrite PlayerFacts.update_from_input_move_x; cbv zeta.
  destruct (PlayerFacts.speed_up_step_fields p) as (_ & _ & M1 & _).
  pose proof (PlayerFacts.current_max_speed_ge (Player.speed_up_step p)) as Hc.
  unfold Player.horizontal_step.
  destruct (Qlt_le_dec (Vec2.x i) 0) as [_|Hge]; [cbn [fst snd] | lra].
  rewrite M1.
  assert (Ha : Qabs (Vec2.x i) == 1) by (rewrite Hx; reflexivity).
  set (a := Qabs (Vec2.x i)) in *.
  set (c := Player.current_max_speed (Player.speed_up_step p)) in *.
  unfold MAX_SPEED, ACCELERATION, CHANGE_DIRECTION_SPEED in *.
  destruct (Qlt_le_dec (Player.move_x p) 0); [lra|].
  split_ifs; cbn [Player.move_x Player.set_move_x]; lra.
Qed.

(** Witness: C1 at the player of [Game::new]. *)
Lemma update_from_input_left_from_rest_witness :
  Player.move_x (Player.new 224 144) == 0 /\ Vec2.x (Vec2.new (-1) 0) == -1 /\
  Player.move_x (Player.update_from_input (Player.new 224 144) (Vec2.new (-1) 0))
    == ACCELERATION.
Proof.
  split; [reflexivity|split; [reflexivity|]].
  apply update_from_input_left_from_rest; reflexivity.
Defined.

(** ** C4 *)

Ltac unfold_rect :=
  unfold rect_intersection, f32_max, f32_min, rect_disjoint, rect_eqv,
    Rect.left, Rect.right, Rect.top, Rect.bottom, RECT_TOLERANCE in *;
  try unfold Rect.zero;
  cbn [Rect.x Rect.y Rect.w Rect.h] in *.

(** Disjoint rectangles intersect in the zero rectangle. *)
Lemma rect_intersection_disjoint a b :
  rect_disjoint a b -> rect_intersection a b = Rect.zero.
Proof.
  intro H; unfold_rect.
  split_ifs; try reflexivity; exfalso;
    destruct H as [H|[H|[H|H]]]; lra.
Qed.

Lemma rect_is_empty_zero : rect_is_empty_with_tolerance Rect.zero = true.
Proof. reflexivity. Qed.

(** [rect_intersection] returns [Rect::zero] or a rectangle whose width and
    height passed the tolerance test; [rect_is_empty_with_tolerance] tells
    the two apart. *)
Lemma rect_intersection_zero_or_wide a b :
  rect_intersection a b = Rect.zero \/
  (RECT_TOLERANCE <= Rect.w (rect_intersection a b) /\
   RECT_TOLERANCE <= Rect.h (rect_intersection a b)).
Proof.
  unfold rect_intersection; cbv zeta.
  split_ifs; [left; reflexivity | left; reflexivity |].
  right; cbn [Rect.w Rect.h] in *; split; assumption.
Qed.

Lemma rect_is_empty_wide r :
  RECT_TOLERANCE <= Rect.w r -> RECT_TOLERANCE <= Rect.h r ->
  rect_is_empty_with_tolerance r = false.
Proof.
  intros Hw Hh; unfold rect_is_empty_with_tolerance.
  destruct (Qlt_le_dec (Rect.w r) RECT_TOLERANCE); [lra|].
  destruct (Qlt_le_dec (Rect.h r) RECT_TOLERANCE); [lra | reflexivity].
Qed.

(** C4 (as stated, refuted): two identical rectangles narrower than the
    tolerance do not come back unchanged; [rect_intersection] returns the
    zero rectangle for them. *)
Lemma rect_intersection_identical_cex :
  let a := Rect.new 0 0 (1 # 20) 1 in
  rect_intersection a a = Rect.zero /\ ~ rect_eqv (rect_intersection a a) a.
Proof.
  vm_compute. split; [reflexivity|].
  intros (_ & _ & H & _); discriminate H.
Qed.

(** C4 (amended): [rect_intersection] of two rectangles that do not
    overlap is the zero rectangle, and whenever the computed overlap has
    width or height below the tolerance 0.1 the result is the zero
    rectangle.  Identical rectangles are not returned unchanged in general:
    one whose width or height is below 0.1 never comes back unchanged,
    unless it is the zero rectangle itself.  Each conjunct only uses the
    order of the computed values, so it also holds with the f32 rounding of
    [x + w] and of the differences. *)
Theorem rect_intersection_tolerance :
  (forall a b : Rect.t, rect_disjoint a b -> rect_intersection a b = Rect.zero) /\
  (forall a b : Rect.t,
     f32_min (Rect.right a) (Rect.right b) - f32_max (Rect.left a) (Rect.left b)
       < RECT_TOLERANCE \/
     f32_min (Rect.bottom a) (Rect.bottom b) - f32_max (Rect.top a) (Rect.top b)
       < RECT_TOLERANCE ->
     rect_intersection a b = Rect.zero) /\
  (forall a : Rect.t, Rect.w a < RECT_TOLERANCE \/ Rect.h a < RECT_TOLERANCE ->
     rect_eqv (rect_intersection a a) a -> rect_eqv a Rect.zero).
Proof.
  split; [|split].
  - exact rect_intersection_disjoint.
  - intros a b H; unfold_rect.
    split_ifs; try reflexivity; exfalso; destruct H; lra.
  - intros a H E.
    destruct (rect_intersection_zero_or_wide a a) as [Z|[Hw Hh]].
    + rewrite Z in E; destruct E as (E1 & E2 & E3 & E4).
      repeat split; symmetry; assumption.
    + exfalso; destruct E as (_ & _ & E3 & E4); destruct H; lra.
Qed.

(** ** C7 *)

Lemma jump_step_grounded (i : Vec2.t) (q : Player.t) :
  Player.jumping q = false -> 0 < Vec2.y i ->
  Player.move_y (Player.jump_step i q) = f32_max (Player.move_y q) UP_SPEED /\
  Player.jumping (Player.jump_step i q) = true.
Proof.
  intros Hj Hy; unfold Player.jump_step, f32_max; rewrite Hj.
  destruct (Qlt_le_dec 0 (Vec2.y i)); [|lra].
  destruct (Qlt_le_dec (Player.move_y q) UP_SPEED); split; reflexivity.
Qed.

Lemma jump_step_airborne (i : Vec2.t) (q : Player.t) :
  Player.jumping q = true -> Player.jump_step i q = q.
Proof. intro Hj; unfold Player.jump_step; rewrite Hj; reflexivity. Qed.

(** C7: when [jumping] is false and [input.y > 0], the jump step of
    [update_from_input] sets [move_y] to [max(move_y, UP_SPEED)] and
    [jumping] to true, so the call ends with [move_y = max(move_y, 7) -
    DECELERATION]; when [jumping] is already true the jump step leaves the
    player as it is, and the call gives the same result as without the jump
    input. *)
Theorem update_from_input_jump : forall (p : Player.t) (i : Vec2.t),
  (Player.jumping p = false -> 0 < Vec2.y i ->
     Player.move_y (Player.jump_step i p) = f32_max (Player.move_y p) UP_SPEED /\
     Player.jumping (Player.jump_step i p) = true /\
     Player.move_y (Player.update_from_input p i)
       == f32_max (Player.move_y p) UP_SPEED - DECELERATION) /\
  (Player.jumping p = true ->
     Player.jump_step i p = p /\
     Player.update_from_input p i = Player.update_from_input p (Vec2.new (Vec2.x i) 0)).
Proof.
  intros p i.
  destruct (PlayerFacts.speed_up_step_fields p) as (_ & _ & _ & Y1 & J1).
  set (p1 := Player.speed_up_step p) in *.
  destruct (PlayerFacts.horizontal_step_fields (Player.current_max_speed p1) i p1)
    as (_ & _ & Y2 & J2 & _).
  split.
  - intros Hj Hy.
    destruct (jump_step_grounded i p Hj Hy) as [A B].
    split; [exact A | split; [exact B|]].
    rewrite PlayerFacts.update_from_input_move_y; cbv zeta; fold p1.
    destruct (jump_step_grounded i (fst (Player.horizontal_step (Player.current_max_speed p1) i p1)))
      as [C _]; [congruence | exact Hy |].
    rewrite C, Y2, Y1.
    unfold PlayerFacts.gravity_y, f32_max, UP_SPEED, MAX_FALL_SPEED, DECELERATION.
    split_ifs; lra.
  - intros Hj; split; [apply jump_step_airborne; exact Hj|].
    rewrite !PlayerFacts.update_from_input_unfold; cbv zeta; fold p1.
    rewrite <- (PlayerFacts.horizontal_step_input_x _ i 0 p1).
    rewrite !jump_step_airborne by congruence.
    reflexivity.
Qed.

(** Witness: C7 on a grounded player and on an airborne one. *)
Lemma update_from_input_jump_witness :
  Player.move_y (Player.update_from_input (Player.new 224 144) (Vec2.new 0 1))
    == f32_max 0 UP_SPEED - DECELERATION /\
  Player.update_from_input (Player.set_jumping (Player.new 224 144) true) (Vec2.new 1 1)
    = Player.update_from_input (Player.set_jumping (Player.new 224 144) true) (Vec2.new 1 0).
Proof.
  split.
  - apply (update_from_input_jump (Player.new 224 144) (Vec2.new 0 1)); reflexivity.
  - apply (update_from_input_jump (Player.set_jumping (Player.new 224 144) true) (Vec2.new 1 1)).
    reflexivity.
Defined.

(** ** The speed invariant of reachable states (C2, C10) *)

Module Reachable.

Lemma speed_up_step_idle p :
  Player.speed_up_counter p = 0%Z -> Player.speed_up_step p = p.
Proof. intro H; unfold Player.speed_up_step; rewrite H; reflexivity. Qed.

Lemma current_max_speed_idle p :
  Player.speed_up_counter p = 0%Z -> Player.current_max_speed p = MAX_SPEED.
Proof. intro H; unfold Player.current_max_speed; rewrite H; reflexivity. Qed.

Lemma update_from_input_counter_idle p i :
  Player.speed_up_counter p = 0%Z ->
  Player.speed_up_counter (Player.update_from_input p i) = 0%Z.
Proof.
  intro H; rewrite PlayerFacts.update_from_input_counter, speed_up_step_idle; exact H.
Qed.

(** The clamp of lines 105-107 and 116-118 and the deceleration of lines
    129-139 keep [move_x] within [current_max_speed]. *)
Lemma update_from_input_move_x_bound p i :
  Player.speed_up_counter p = 0%Z ->
  - MAX_SPEED <= Player.move_x p <= MAX_SPEED ->
  - MAX_SPEED <= Player.move_x (Player.update_from_input p i) <= MAX_SPEED.
Proof.
  intros Hc Hb.
  rewrite PlayerFacts.update_from_input_move_x; cbv zeta.
  rewrite speed_up_step_idle, current_max_speed_idle by exact Hc.
  assert (Ha : 0 <= Qabs (Vec2.x i)) by apply Qabs_nonneg.
  unfold Player.horizontal_step.
  set (a := Qabs (Vec2.x i)) in *.
  unfold PlayerFacts.decel_x, MAX_SPEED, ACCELERATION, CHANGE_DIRECTION_SPEED,
    DECELERATION in *.
  destruct (Qlt_le_dec (Vec2.x i) 0); [|destruct (Qlt_le_dec 0 (Vec2.x i))];
    cbn [fst snd]; split_ifs; cbn [Player.move_x Player.set_move_x]; try lra.
  all: match goal with H : Qabs _ < _ |- _ => apply Qabs_Qlt_condition in H end; lra.
Qed.

Lemma update_from_input_move_y_bound p i :
  MAX_FALL_SPEED <= Player.move_y (Player.update_from_input p i).
Proof.
  rewrite PlayerFacts.update_from_input_move_y; cbv zeta.
  unfold PlayerFacts.gravity_y; split_ifs; lra.
Qed.

(** The invariant: no boost, and [|move_x| <= MAX_SPEED]. *)
Definition inv (g : Game.t) : Prop :=
  Player.speed_up_counter (Game.player g) = 0%Z /\
  - MAX_SPEED <= Player.move_x (Game.player g) <= MAX_SPEED.

Lemma inv_new : inv Game.new.
Proof. unfold inv, MAX_SPEED; simpl; split; [reflexivity | lra]. Qed.

Lemma inv_update g : inv g -> inv (Game.update g).
Proof.
  intros [Hc Hb].
  destruct (GameFacts.update_player_speed g) as [C M]; cbv zeta in C, M.
  split.
  - rewrite C; apply update_from_input_counter_idle; exact Hc.
  - destruct M as [M|M]; rewrite M.
    + apply update_from_input_move_x_bound; assumption.
    + unfold MAX_SPEED; lra.
Qed.

Lemma inv_reachable g : Game.reachable g -> inv g.
Proof.
  induction 1.
  - exact inv_new.
  - apply inv_update; assumption.
  - unfold inv; rewrite GameFacts.key_down_event_player; exact IHreachable.
  - unfold inv; rewrite GameFacts.key_up_event_player; exact IHreachable.
Qed.
End Reachable.

(** ** C10 *)

(** C10: in every state reachable from [Game::new] through [update],
    [key_down_event] and [key_up_event], [speed_up_counter] is 0, so the
    speed-boost block of [update_from_input] leaves the player as it is and
    the maximal speed it computes is [MAX_SPEED], never the boosted one. *)
Theorem reachable_no_speed_boost : forall g : Game.t,
  Game.reachable g ->
  Player.speed_up_counter (Game.player g) = 0%Z /\
  Player.speed_up_step (Game.player g) = Game.player g /\
  Player.current_max_speed (Player.speed_up_step (Game.player g)) = MAX_SPEED.
Proof.
  intros g Hr; destruct (Reachable.inv_reachable g Hr) as [Hc _].
  rewrite Reachable.speed_up_step_idle by exact Hc.
  split; [exact Hc | split; [reflexivity|]].
  apply Reachable.current_max_speed_idle; exact Hc.
Qed.

(** Witness: C10 after a key press and two frames. *)
Lemma reachable_no_speed_boost_witness :
  Player.speed_up_counter
    (Game.player (Game.update (Game.update (Game.key_down_event Game.new Game.Right))))
    = 0%Z.
Proof.
  apply reachable_no_speed_boost.
  repeat constructor.
Defined.

(** ** C2 *)

(** C2: in every reachable state, for every input vector, the player that
    [update_from_input] returns has [|move_x|] at most the maximal speed
    of its [speed_up_counter] ([MAX_SPEED], or boosted while the counter is
    positive) and [move_y >= MAX_FALL_SPEED]. *)
Theorem reachable_update_from_input_bounds : forall (g : Game.t) (i : Vec2.t),
  Game.reachable g ->
  let p' := Player.update_from_input (Game.player g) i in
  Qabs (Player.move_x p') <= Player.current_max_speed p' /\
  MAX_FALL_SPEED <= Player.move_y p'.
Proof.
  intros g i Hr; cbv zeta.
  destruct (Reachable.inv_reachable g Hr) as [Hc Hb].
  split; [|apply Reachable.update_from_input_move_y_bound].
  rewrite Reachable.current_max_speed_idle
    by (apply Reachable.update_from_input_counter_idle; exact Hc).
  apply Qabs_Qle_condition.
  apply Reachable.update_from_input_move_x_bound; assumption.
Qed.

(** Witness: C2 at [Game::new] with the left key held. *)
Lemma reachable_update_from_input_bounds_witness :
  Qabs (Player.move_x (Player.update_from_input (Game.player Game.new) (Vec2.new (-1) 1)))
    <= Player.current_max_speed
         (Player.update_from_input (Game.player Game.new) (Vec2.new (-1) 1)).
Proof.
  apply (reachable_update_from_input_bounds Game.new (Vec2.new (-1) 1)).
  constructor.
Defined.

(** ** Runs of [update_from_input] *)

(** [n] consecutive calls of [update_from_input], the [k]-th with input [f k]. *)
Fixpoint run_frames (f : nat -> Vec2.t) (n : nat) (p : Player.t) : Player.t :=
  match n with
  | O => p
  | S n' => run_frames (fun k => f (S k)) n' (Player.update_from_input p (f O))
  end.

(** ** C6 *)

Module Decel.
Import PlayerFacts.

Lemma decel_x_cases m :
  (- DECELERATION < m < DECELERATION /\ decel_x m = 0) \/
  (DECELERATION <= m /\ decel_x m = m - DECELERATION) \/
  (m <= - DECELERATION /\ decel_x m = m + DECELERATION).
Proof.
  unfold decel_x.
  destruct (Qlt_le_dec (Qabs m) DECELERATION) as [H|H].
  - left; split; [apply Qabs_Qlt_condition; exact H | reflexivity].
  - destruct (Qlt_le_dec 0 m) as [H1|H1].
    + right; left; split; [|reflexivity].
      rewrite Qabs_pos in H by lra; exact H.
    + destruct (Qlt_le_dec m 0) as [H2|H2].
      * right; right; split; [|reflexivity].
        rewrite Qabs_neg in H by lra; lra.
      * exfalso; assert (m == 0) as E by lra; rewrite E in H.
        unfold DECELERATION in H; simpl in H; lra.
Qed.

Lemma update_from_input_no_input_move_x p i :
  Vec2.x i == 0 ->
  Player.move_x (Player.update_from_input p i) = decel_x (Player.move_x p).
Proof.
  intro Hx; rewrite update_from_input_move_x; cbv zeta.
  rewrite horizontal_step_none by exact Hx; cbn [fst snd].
  f_equal; apply speed_up_step_fields.
Qed.

Lemma run_frames_zero_stays k : forall f p,
  (forall j, Vec2.x (f j) == 0) -> Player.move_x p == 0 ->
  Player.move_x (run_frames f k p) == 0.
Proof.
  induction k as [|k IH]; intros f p Hf H0; simpl; [exact H0|].
  apply IH; [intro j; apply Hf|].
  rewrite update_from_input_no_input_move_x by apply Hf.
  destruct (decel_x_cases (Player.move_x p)) as [(_ & E)|[(A & _)|(A & _)]];
    [rewrite E; reflexivity | unfold DECELERATION in *; lra | unfold DECELERATION in *; lra].
Qed.

Lemma run_frames_reach N : forall f p k,
  (forall j, Vec2.x (f j) == 0) ->
  Qabs (Player.move_x p) < inject_Z (Z.of_nat N) * DECELERATION ->
  (N <= k)%nat ->
  Player.move_x (run_frames f k p) == 0.
Proof.
  induction N as [|N IH]; intros f p k Hf Hm Hk.
  - exfalso; pose proof (Qabs_nonneg (Player.move_x p)).
    unfold inject_Z in Hm; simpl in Hm; unfold DECELERATION in Hm; lra.
  - destruct k as [|k]; [lia|]; simpl.
    assert (Hf' : forall j, Vec2.x (f (S j)) == 0) by (intro j; apply Hf).
    pose proof (update_from_input_no_input_move_x p (f O) (Hf O)) as E0.
    destruct (decel_x_cases (Player.move_x p)) as [(_ & E)|[(A & E)|(A & E)]].
    + apply run_frames_zero_stays; [exact Hf'|]. rewrite E0, E; reflexivity.
    + apply IH; [exact Hf' | | lia].
      rewrite E0, E.
      rewrite Qabs_pos in Hm by (unfold DECELERATION in *; lra).
      rewrite Qabs_pos by (unfold DECELERATION in *; lra).
      assert (HS : inject_Z (Z.of_nat (S N)) == inject_Z (Z.of_nat N) + 1)
        by (rewrite Nat2Z.inj_succ, <- Z.add_1_r, inject_Z_plus; reflexivity).
      unfold DECELERATION in *; lra.
    + apply IH; [exact Hf' | | lia].
      rewrite E0, E.
      rewrite Qabs_neg in Hm by (unfold DECELERATION in *; lra).
      rewrite Qabs_neg by (unfold DECELERATION in *; lra).
      assert (HS : inject_Z (Z.of_nat (S N)) == inject_Z (Z.of_nat N) + 1)
        by (rewrite Nat2Z.inj_succ, <- Z.add_1_r, inject_Z_plus; reflexivity).
      unfold DECELERATION in *; lra.
Qed.

Lemma run_frames_nonneg k : forall f p,
  (forall j, Vec2.x (f j) == 0) -> 0 <= Player.move_x p ->
  0 <= Player.move_x (run_frames f k p).
Proof.
  induction k as [|k IH]; intros f p Hf H0; simpl; [exact H0|].
  apply IH; [intro j; apply Hf|].
  rewrite update_from_input_no_input_move_x by apply Hf.
  destruct (decel_x_cases (Player.move_x p)) as [(_ & E)|[(A & E)|(A & E)]];
    rewrite E; unfold DECELERATION in *; lra.
Qed.

Lemma run_frames_nonpos k : forall f p,
  (forall j, Vec2.x (f j) == 0) -> Player.move_x p <= 0 ->
  Player.move_x (run_frames f k p) <= 0.
Proof.
  induction k as [|k IH]; intros f p Hf H0; simpl; [exact H0|].
  apply IH; [intro j; apply Hf|].
  rewrite update_from_input_no_input_move_x by apply Hf.
  destruct (decel_x_cases (Player.move_x p)) as [(_ & E)|[(A & E)|(A & E)]];
    rewrite E; unfold DECELERATION in *; lra.
Qed.

Lemma archimedean_decel m :
  exists N : nat, Qabs m < inject_Z (Z.of_nat N) * DECELERATION.
Proof.
  destruct (Qarchimedean (Qabs m * 5)) as [q Hq].
  exists (Pos.to_nat q).
  rewrite positive_nat_Z.
  assert (0 < Z.pos q # 1) by reflexivity.
  unfold inject_Z, DECELERATION; lra.
Qed.
End Decel.

(** C6: if every frame has [input.x = 0], then [move_x] reaches exactly 0
    after finitely many calls of [update_from_input] and stays 0, and it
    never changes sign on the way: from [move_x >= 0] it stays [>= 0], from
    [move_x <= 0] it stays [<= 0]. *)
Theorem no_input_decelerates_to_zero : forall (p : Player.t) (f : nat -> Vec2.t),
  (forall k, Vec2.x (f k) == 0) ->
  (exists n, forall k, (n <= k)%nat -> Player.move_x (run_frames f k p) == 0) /\
  (forall k, 0 <= Player.move_x p -> 0 <= Player.move_x (run_frames f k p)) /\
  (forall k, Player.move_x p <= 0 -> Player.move_x (run_frames f k p) <= 0).
Proof.
  intros p f Hf.
  split; [|split].
  - destruct (Decel.archimedean_decel (Player.move_x p)) as [N HN].
    exists N; intros k Hk; apply (Decel.run_frames_reach N); assumption.
  - intros k H; apply Decel.run_frames_nonneg; assumption.
  - intros k H; apply Decel.run_frames_nonpos; assumption.
Qed.

(** Witness: C6 from full speed to the left, with no input. *)
Lemma no_input_decelerates_to_zero_witness :
  0 <= Player.move_x
         (run_frames (fun _ => Vec2.new 0 0) 30
            (Player.set_move_x (Player.new 224 144) MAX_SPEED)).
Proof.
  destruct (no_input_decelerates_to_zero
              (Player.set_move_x (Player.new 224 144) MAX_SPEED) (fun _ => Vec2.new 0 0))
    as (_ & Hnn & _); [intro; reflexivity|].
  apply Hnn; unfold MAX_SPEED; simpl; lra.
Defined.

(** ** C5 *)

Module Boost.
Import PlayerFacts.

(** The value lines 91-96 give to [speed_up_counter]. *)
Definition counter_step (c : Z) : Z :=
  if (0 <? c)%Z then
    let c' := i32_add c 1 in
    if (MAX_SPEEDUP_COUNT <? c')%Z then 0%Z else c'
  else c.

Lemma speed_up_step_counter p :
  Player.speed_up_counter (Player.speed_up_step p) =
  counter_step (Player.speed_up_counter p).
Proof. unfold Player.speed_up_step, counter_step; split_ifs; reflexivity. Qed.

Lemma run_frames_counter n : forall f p,
  Player.speed_up_counter (run_frames f n p) =
  Nat.iter n counter_step (Player.speed_up_counter p).
Proof.
  induction n as [|n IH]; intros f p; [reflexivity|].
  simpl; rewrite IH, update_from_input_counter, speed_up_step_counter.
  rewrite <- Nat.iter_succ_r; reflexivity.
Qed.

Lemma i32_add_small c :
  (- 2 ^ 31 <= c + 1 <= I32_MAX)%Z -> i32_add c 1 = (c + 1)%Z.
Proof.
  intro H; unfold i32_add, i32_wrap, I32_MAX in *.
  rewrite Z.mod_small by lia; lia.
Qed.

Lemma iter_counting n : forall c,
  (0 < c)%Z -> (c + Z.of_nat n <= MAX_SPEEDUP_COUNT)%Z ->
  Nat.iter n counter_step c = (c + Z.of_nat n)%Z.
Proof.
  unfold MAX_SPEEDUP_COUNT.
  induction n as [|n IH]; intros c H0 H1; [simpl; lia|].
  rewrite Nat.iter_succ, IH by lia.
  unfold counter_step.
  rewrite i32_add_small by (unfold I32_MAX; lia).
  replace (0 <? c + Z.of_nat n)%Z with true by (symmetry; apply Z.ltb_lt; lia).
  replace (MAX_SPEEDUP_COUNT <? c + Z.of_nat n + 1)%Z with false
    by (symmetry; apply Z.ltb_ge; unfold MAX_SPEEDUP_COUNT; lia).
  lia.
Qed.

Lemma iter_idle n : Nat.iter n counter_step 0%Z = 0%Z.
Proof. induction n as [|n IH]; [reflexivity|]. rewrite Nat.iter_succ, IH; reflexivity. Qed.

(** A counter in [1, 360] is reset on call [361 - c]. *)
Lemma iter_reset c :
  (0 < c <= MAX_SPEEDUP_COUNT)%Z ->
  Nat.iter (Z.to_nat (361 - c)) counter_step c = 0%Z.
Proof.
  unfold MAX_SPEEDUP_COUNT; intro H.
  replace (Z.to_nat (361 - c)) with (S (Z.to_nat (360 - c))) by lia.
  rewrite Nat.iter_succ, iter_counting by (unfold MAX_SPEEDUP_COUNT; lia).
  replace (c + Z.of_nat (Z.to_nat (360 - c)))%Z with 360%Z by lia.
  reflexivity.
Qed.

Lemma iter_361 c :
  (0 < c < I32_MAX)%Z -> Nat.iter 361 counter_step c = 0%Z.
Proof.
  intro H.
  destruct (Z.le_gt_cases c MAX_SPEEDUP_COUNT) as [Hle|Hgt].
  - replace 361%nat with (Z.to_nat c + Z.to_nat (361 - c))%nat
      by (unfold MAX_SPEEDUP_COUNT in Hle; lia).
    rewrite Nat.iter_add, iter_reset by lia.
    apply iter_idle.
  - replace 361%nat with (360 + 1)%nat by reflexivity.
    rewrite Nat.iter_add; simpl Nat.iter at 2.
    unfold counter_step.
    rewrite i32_add_small by (unfold I32_MAX in *; lia).
    replace (0 <? c)%Z with true by (symmetry; apply Z.ltb_lt; lia).
    replace (MAX_SPEEDUP_COUNT <? c + 1)%Z with true by (symmetry; apply Z.ltb_lt; lia).
    apply iter_idle.
Qed.
End Boost.

(** C5 (code bug, line 92): for a counter set to [i32::MAX],
    [speed_up_counter += 1] overflows on the first call.  A debug build
    panics there; a release build wraps to [i32::MIN], which is not [> 0],
    so the counter is never reset and is not 0 after 361 calls. *)
Lemma speed_up_counter_overflow_cex :
  Player.speed_up_counter
    (run_frames (fun _ => Vec2.new 0 0) 361
       (Player.set_speed_up_counter (Player.new 224 144) I32_MAX))
  = (- 2 ^ 31)%Z.
Proof. vm_compute. reflexivity. Qed.

(** C5 (every other positive counter): if [speed_up_counter] holds a value
    [c] with [0 < c < i32::MAX], then after 361 calls of [update_from_input]
    it is exactly 0, and the 361st call computes [MAX_SPEED], not the boosted
    speed, as its maximal speed; when moreover [c <= 360], the counter is
    [c + n] (boost active) after every [n < 361 - c] calls and is 0 after
    exactly [361 - c] calls. *)
Theorem speed_up_counter_resets : forall (p : Player.t) (f : nat -> Vec2.t),
  (0 < Player.speed_up_counter p < I32_MAX)%Z ->
  Player.speed_up_counter (run_frames f 361 p) = 0%Z /\
  Player.current_max_speed (Player.speed_up_step (run_frames f 360 p)) = MAX_SPEED /\
  ((Player.speed_up_counter p <= MAX_SPEEDUP_COUNT)%Z ->
     Player.speed_up_counter
       (run_frames f (Z.to_nat (361 - Player.speed_up_counter p)) p) = 0%Z /\
     (forall n, (Z.of_nat n < 361 - Player.speed_up_counter p)%Z ->
        Player.speed_up_counter (run_frames f n p) =
        (Player.speed_up_counter p + Z.of_nat n)%Z)).
Proof.
  intros p f H.
  set (c := Player.speed_up_counter p) in *.
  split; [|split].
  - rewrite Boost.run_frames_counter; apply Boost.iter_361; exact H.
  - unfold Player.current_max_speed.
    rewrite Boost.speed_up_step_counter, Boost.run_frames_counter.
    fold c; rewrite <- Nat.iter_succ, Boost.iter_361 by exact H.
    reflexivity.
  - intro Hle; split.
    + rewrite Boost.run_frames_counter; apply Boost.iter_reset; lia.
    + intros n Hn; rewrite Boost.run_frames_counter; apply Boost.iter_counting;
        unfold MAX_SPEEDUP_COUNT in *; lia.
Qed.

(** Witness: C5 for a counter set to 1. *)
Lemma speed_up_counter_resets_witness :
  Player.speed_up_counter
    (run_frames (fun _ => Vec2.new (-1) 0) 361
       (Player.set_speed_up_counter (Player.new 224 144) 1)) = 0%Z.
Proof.
  destruct (speed_up_counter_resets
              (Player.set_speed_up_counter (Player.new 224 144) 1)
              (fun _ => Vec2.new (-1) 0)) as [H _];
    [unfold I32_MAX; simpl; lia | exact H].
Defined.

(** ** C3 *)

(** The horizontal outcome of one platform, following the spec's
    description: [Some offset] when it overlaps the player beyond tolerance
    and one of the two edge tests holds. *)
Definition lr_hit (pl : Player.t) (o : Platform.t) : option Q :=
  let pr := Player.rect pl in
  let r := Platform.rect o in
  let i := rect_intersection r pr in
  if rect_is_empty_with_tolerance i then None
  else if Qlt_le_dec (Rect.left pr) (Rect.left r) then Some (Rect.w i)
  else if Qlt_le_dec (Rect.right r) (Rect.right pr) then Some (- Rect.w i)
  else None.

(** The offsets of the colliding platforms, in list order. *)
Definition lr_collisions (pl : Player.t) (os : list Platform.t) : list Q :=
  flat_map (fun o => match lr_hit pl o with Some v => [v] | None => [] end) os.

Module LeftRight.
Lemma left_right_body_hit pl acc o :
  Game.left_right_body pl acc o =
  match lr_hit pl o with Some v => (true, v) | None => acc end.
Proof.
  unfold Game.left_right_body, lr_hit; cbn [GameObject.is_platform GameObject.rect
    Platform_GameObject Platform.is_platform].
  destruct (rect_is_empty_with_tolerance _); [reflexivity|].
  split_ifs; reflexivity.
Qed.

Lemma fold_left_right pl os : forall acc,
  fold_left (Game.left_right_body pl) os acc =
  match rev (lr_collisions pl os) with [] => acc | v :: _ => (true, v) end.
Proof.
  induction os as [|o os IH]; intro acc; [reflexivity|].
  simpl fold_left; rewrite IH, left_right_body_hit.
  unfold lr_collisions; simpl flat_map; rewrite rev_app_distr; fold (lr_collisions pl os).
  destruct (rev (lr_collisions pl os)); destruct (lr_hit pl o); reflexivity.
Qed.
End LeftRight.

(** C3 (as stated, refuted): a platform that overlaps the player beyond
    tolerance but spans it horizontally is not a horizontal collision:
    [collision_left_right] applies no world shift and keeps [move_x]. *)
Lemma collision_left_right_spanning_cex :
  let pl := Player.set_move_x (Player.new 224 144) 1 in
  let o := Platform.mk 0 170 11 5 in
  let g := Game.mk pl [o] (Vec2.new (-1) 0) (Vec2.new 0 0) in
  rect_is_empty_with_tolerance (rect_intersection (Platform.rect o) (Player.rect pl)) = false /\
  Game.collision_left_right g = g /\
  Player.move_x (Game.player (Game.collision_left_right g)) = 1.
Proof. vm_compute. split; [reflexivity | split; reflexivity]. Qed.

(** C3 (amended): a platform overlapping the player beyond tolerance counts
    as a horizontal collision only when its left edge is right of the
    player's left edge (offset [+width] of the overlap) or else its right
    edge is left of the player's right edge (offset [-width]); if some
    platform counts, [collision_left_right] applies exactly one world shift
    [(offset, 0)], with the offset of the last counting platform in list
    order, and sets [move_x] to 0; otherwise it changes nothing. *)
Theorem collision_left_right_last_wins : forall g : Game.t,
  Game.collision_left_right g =
  match rev (lr_collisions (Game.player g) (Game.game_objects g)) with
  | [] => g
  | offset_x :: _ =>
      Game.set_player (Game.move_world g offset_x 0)
                      (Player.set_move_x (Game.player g) 0)
  end.
Proof.
  intro g; unfold Game.collision_left_right.
  rewrite LeftRight.fold_left_right.
  destruct (rev (lr_collisions (Game.player g) (Game.game_objects g))); reflexivity.
Qed.

(** ** C8 *)

(** The platform [o] carries the player [pl]: its top edge is the player's
    bottom edge and the two overlap horizontally by at least the tolerance. *)
Definition supports (pl : Player.t) (o : Platform.t) : Prop :=
  Platform.y o == Player.y pl + TILE_SIZE /\
  (1 <= Platform.width_segments o)%Z /\ (1 <= Platform.height_segments o)%Z /\
  RECT_TOLERANCE <=
    Platform.x o + inject_Z (Platform.width_segments o) * TILE_SIZE - Player.x pl /\
  RECT_TOLERANCE <= Player.x pl + TILE_SIZE - Platform.x o.

(** The platform [o] is away from the player: beside it, above it, or at
    least [DECELERATION] below its bottom edge. *)
Definition clear_of (pl : Player.t) (o : Platform.t) : Prop :=
  Platform.x o + inject_Z (Platform.width_segments o) * TILE_SIZE <= Player.x pl \/
  Player.x pl + TILE_SIZE <= Platform.x o \/
  Platform.y o + inject_Z (Platform.height_segments o) * TILE_SIZE <= Player.y pl \/
  Player.y pl + TILE_SIZE + DECELERATION <= Platform.y o.

(** The player rests on a platform, without velocity, jump or input. *)
Definition at_rest (g : Game.t) : Prop :=
  let pl := Game.player g in
  Player.move_x pl == 0 /\ Player.move_y pl == 0 /\ Player.jumping pl = false /\
  Vec2.x (Game.input_acceleration g) == 0 /\ Vec2.y (Game.input_acceleration g) == 0 /\
  Forall (fun o => supports pl o \/ clear_of pl o) (Game.game_objects g) /\
  Exists (supports pl) (Game.game_objects g).

(** [o'] is [o] moved by [(dx, dy)]. *)
Definition shifted (dx dy : Q) (o o' : Platform.t) : Prop :=
  Platform.x o' == Platform.x o + dx /\ Platform.y o' == Platform.y o + dy /\
  Platform.width_segments o' = Platform.width_segments o /\
  Platform.height_segments o' = Platform.height_segments o.

Module Resting.

Lemma move_world_shifted g dx dy :
  Forall2 (shifted dx dy) (Game.game_objects g) (Game.game_objects (Game.move_world g dx dy)).
Proof.
  simpl; induction (Game.game_objects g) as [|o os IH]; constructor; [|exact IH].
  unfold shifted; simpl; repeat split; reflexivity.
Qed.

Lemma shifted_trans a b c d l1 l2 l3 :
  Forall2 (shifted a b) l1 l2 -> Forall2 (shifted c d) l2 l3 ->
  Forall2 (shifted (a + c) (b + d)) l1 l3.
Proof.
  intro H; revert l3; induction H as [|o1 o2 l1 l2 H12 _ IH]; intros l3 H3;
    inversion H3 as [|o2' o3 l2' l3' H23 R]; subst; constructor; [|apply IH; exact R].
  destruct H12 as (X1 & Y1 & W1 & H1); destruct H23 as (X2 & Y2 & W2 & H2).
  unfold shifted; repeat split; [lra | lra | congruence | congruence].
Qed.

Lemma shifted_refl l : Forall2 (shifted 0 0) l l.
Proof.
  induction l as [|o l IH]; constructor; [|exact IH].
  unfold shifted; repeat split; lra.
Qed.

Lemma inject_Z_ge_1 z : (1 <= z)%Z -> 1 <= inject_Z z.
Proof. intro H; change 1 with (inject_Z 1); rewrite <- Zle_Qle; exact H. Qed.

Ltac geom :=
  unfold rect_disjoint, Platform.rect, Player.rect, Rect.left, Rect.right,
    Rect.top, Rect.bottom, TILE_SIZE, DECELERATION, RECT_TOLERANCE,
    COLLISION_TOLERANCE in *;
  cbn [Rect.x Rect.y Rect.w Rect.h] in *.

(** A clear platform, moved at most [DECELERATION] up, does not meet the
    player. *)
Lemma clear_empty pl p o o' dy :
  Player.x p = Player.x pl -> Player.y p = Player.y pl ->
  clear_of pl o -> shifted 0 dy o o' -> - DECELERATION <= dy <= 0 ->
  rect_is_empty_with_tolerance (rect_intersection (Platform.rect o') (Player.rect p)) = true.
Proof.
  intros Ex Ey Hc (Hx & Hy & Hw & Hh) Hd.
  rewrite rect_intersection_disjoint; [reflexivity|].
  unfold clear_of in Hc; rewrite <- Hw, <- Hh in Hc; rewrite <- Ex, <- Ey in Hc.
  geom.
  destruct Hc as [H|[H|[H|H]]];
    [left | right; left | right; right; left | right; right; right]; lra.
Qed.

(** Before the vertical move, a supporting platform only touches the
    player. *)
Lemma support_empty pl p o o' :
  Player.x p = Player.x pl -> Player.y p = Player.y pl ->
  supports pl o -> shifted 0 0 o o' ->
  rect_is_empty_with_tolerance (rect_intersection (Platform.rect o') (Player.rect p)) = true.
Proof.
  intros Ex Ey (Hs & _) (Hx & Hy & _).
  rewrite rect_intersection_disjoint; [reflexivity|].
  rewrite <- Ey in Hs; geom.
  right; right; right; lra.
Qed.

(** After the gravity move of [DECELERATION], a supporting platform
    overlaps the player by exactly [DECELERATION]. *)
Lemma support_hit pl p o o' :
  Player.x p = Player.x pl -> Player.y p = Player.y pl ->
  supports pl o -> shifted 0 (- DECELERATION) o o' ->
  rect_is_empty_with_tolerance (rect_intersection (Platform.rect o') (Player.rect p)) = false /\
  Rect.h (rect_intersection (Platform.rect o') (Player.rect p)) == DECELERATION.
Proof.
  intros Ex Ey (Hs & Hw1 & Hh1 & Hl & Hr) (Hx & Hy & Hw & Hh).
  apply inject_Z_ge_1 in Hw1; apply inject_Z_ge_1 in Hh1.
  rewrite <- Hw in Hw1, Hl; rewrite <- Hh in Hh1.
  rewrite <- Ex in Hl, Hr; rewrite <- Ey in Hs.
  unfold rect_intersection, rect_is_empty_with_tolerance, f32_max, f32_min, Rect.zero in *.
  geom.
  set (W := inject_Z (Platform.width_segments o')) in *.
  set (H := inject_Z (Platform.height_segments o')) in *.
  split_ifs; cbn [Rect.x Rect.y Rect.w Rect.h] in *; split; try reflexivity; lra.
Qed.

Ltac unfold_body :=
  unfold Game.up_down_body;
  cbn [GameObject.is_platform GameObject.rect Platform_GameObject Platform.is_platform].

(** [collision_up_down] has landed the player: a collision is recorded
    with offset [DECELERATION], and the player has stopped and is no longer
    jumping. *)
Definition landed (p2 : Player.t) (acc : bool * Q * Player.t) : Prop :=
  fst (fst acc) = true /\ snd (fst acc) == DECELERATION /\
  Player.move_y (snd acc) == 0 /\ Player.jumping (snd acc) = false /\
  Player.x (snd acc) = Player.x p2 /\ Player.y (snd acc) = Player.y p2 /\
  Player.move_x (snd acc) = Player.move_x p2.

Lemma body_clear pl o o' acc :
  Player.x (snd acc) = Player.x pl -> Player.y (snd acc) = Player.y pl ->
  clear_of pl o -> shifted 0 (- DECELERATION) o o' ->
  Game.up_down_body acc o' = acc.
Proof.
  destruct acc as [[c off] p]; simpl; intros Ex Ey Hc Hsh.
  unfold_body.
  rewrite (clear_empty pl p o o' (- DECELERATION)) by (try assumption; unfold DECELERATION; lra).
  reflexivity.
Qed.

Lemma body_support pl o o' p2 acc :
  Player.x p2 = Player.x pl -> Player.y p2 = Player.y pl ->
  Player.move_y p2 == - DECELERATION ->
  supports pl o -> shifted 0 (- DECELERATION) o o' ->
  acc = (false, 0, p2) \/ landed p2 acc ->
  landed p2 (Game.up_down_body acc o').
Proof.
  intros Ex Ey Hm Hs Hsh Hacc.
  assert (Exy : Player.x (snd acc) = Player.x pl /\ Player.y (snd acc) = Player.y pl)
    by (destruct Hacc as [E|(_ & _ & _ & _ & X & Y & _)]; [subst acc|]; simpl; split; congruence).
  destruct Exy as [Ex' Ey'].
  destruct acc as [[c off] p]; simpl in Ex', Ey'.
  destruct (support_hit pl p o o' Ex' Ey' Hs Hsh) as [He Hh].
  destruct Hs as (Hs & _ & Hh1 & _); destruct Hsh as (Hx & Hy & Hw & Hhs).
  apply inject_Z_ge_1 in Hh1; rewrite <- Hhs in Hh1.
  unfold_body; rewrite He.
  unfold landed in *; cbn [fst snd] in *.
  geom.
  destruct (Qlt_le_dec _ _) as [Hb|Hb]; [exfalso; rewrite Ey' in Hb; lra|].
  destruct Hacc as [E|(Ec & Eo & Emy & Ej & X & Y & Mx)].
  - injection E as -> -> ->.
    destruct (Qlt_le_dec (Player.move_y p2) 0) as [Hn|Hn]; [|lra].
    destruct (Qlt_le_dec _ _) as [Ht|Ht]; [|rewrite Ey' in Ht; lra].
    cbn [fst snd Player.move_y Player.jumping Player.x Player.y Player.move_x
      Player.set_jumping Player.set_move_y].
    repeat split; try exact Hh; reflexivity.
  - destruct (Qlt_le_dec (Player.move_y p) 0) as [Hn|Hn]; [lra|].
    destruct (Qlt_le_dec _ _) as [Ht|Ht]; [|rewrite Ey' in Ht; lra].
    cbn [fst snd Player.move_y Player.jumping Player.x Player.y Player.move_x
      Player.set_jumping].
    repeat split; try exact Hh; assumption.
Qed.

Lemma fold_rest pl p2 os os' :
  Player.x p2 = Player.x pl -> Player.y p2 = Player.y pl ->
  Player.move_y p2 == - DECELERATION ->
  Forall2 (shifted 0 (- DECELERATION)) os os' ->
  Forall (fun o => supports pl o \/ clear_of pl o) os ->
  forall acc,
    (acc = (false, 0, p2) \/ landed p2 acc) ->
    (Exists (supports pl) os \/ landed p2 acc) ->
    landed p2 (fold_left Game.up_down_body os' acc).
Proof.
  intros Ex Ey Hm H2; induction H2 as [|o o' os os' Hsh _ IH]; intros HF acc Hacc Hex.
  - destruct Hex as [Hex|Hl]; [inversion Hex | exact Hl].
  - inversion HF as [|o1 os1 Ho HF' Eq]; subst.
    assert (Exy : Player.x (snd acc) = Player.x pl /\ Player.y (snd acc) = Player.y pl)
      by (destruct Hacc as [E|(_ & _ & _ & _ & X & Y & _)]; [subst acc|]; simpl; split; congruence).
    destruct Exy as [Ex' Ey'].
    simpl fold_left.
    assert (Hsup : supports pl o -> landed p2 (Game.up_down_body acc o')).
    { intro Hs; apply (body_support pl o o' p2 acc); assumption. }
    destruct Hex as [Hex|Hl].
    + inversion Hex as [o1 os1 Hs|o1 os1 Hex']; subst.
      * apply IH; [exact HF' | right; apply Hsup; exact Hs | right; apply Hsup; exact Hs].
      * destruct Ho as [Hs|Hc].
        -- apply IH; [exact HF' | right; apply Hsup; exact Hs | right; apply Hsup; exact Hs].
        -- rewrite (body_clear pl o o' acc Ex' Ey' Hc Hsh).
           apply IH; [exact HF' | exact Hacc | left; exact Hex'].
    + destruct Ho as [Hs|Hc].
      * apply IH; [exact HF' | right; apply Hsup; exact Hs | right; apply Hsup; exact Hs].
      * rewrite (body_clear pl o o' acc Ex' Ey' Hc Hsh).
        apply IH; [exact HF' | right; exact Hl | right; exact Hl].
Qed.

Lemma map_update_id os : map GameObject.update os = os.
Proof. induction os as [|o os IH]; [reflexivity|]; cbn [map]; rewrite IH; reflexivity. Qed.

Lemma shifted_weaken a b a' b' l l' :
  Forall2 (shifted a b) l l' -> a == a' -> b == b' -> Forall2 (shifted a' b') l l'.
Proof.
  intros H Ha Hb; induction H as [|o o' l l' Ho _ IH]; constructor; [|exact IH].
  destruct Ho as (X & Y & W & Hh); repeat split; [lra | lra | exact W | exact Hh].
Qed.

Lemma supports_shift pl pl' o o' :
  Player.x pl' = Player.x pl -> Player.y pl' = Player.y pl ->
  shifted 0 0 o o' -> supports pl o -> supports pl' o'.
Proof.
  intros Ex Ey (X & Y & W & Hh) (S1 & S2 & S3 & S4 & S5).
  unfold supports; rewrite W, Hh, Ex, Ey; repeat split; try assumption; lra.
Qed.

Lemma clear_shift pl pl' o o' :
  Player.x pl' = Player.x pl -> Player.y pl' = Player.y pl ->
  shifted 0 0 o o' -> clear_of pl o -> clear_of pl' o'.
Proof.
  intros Ex Ey (X & Y & W & Hh) Hc.
  unfold clear_of in *; rewrite W, Hh, Ex, Ey.
  destruct Hc as [H|[H|[H|H]]];
    [left | right; left | right; right; left | right; right; right]; lra.
Qed.

Lemma rest_shift_forall pl pl' os os' :
  Player.x pl' = Player.x pl -> Player.y pl' = Player.y pl ->
  Forall2 (shifted 0 0) os os' ->
  Forall (fun o => supports pl o \/ clear_of pl o) os ->
  Forall (fun o => supports pl' o \/ clear_of pl' o) os'.
Proof.
  intros Ex Ey H; induction H as [|o o' os os' Ho _ IH]; intro HF; constructor;
    inversion HF as [|o1 os1 Hoo HF' Eq]; subst.
  - destruct Hoo as [A|A];
      [left; apply (supports_shift pl pl' o o') | right; apply (clear_shift pl pl' o o')];
      assumption.
  - apply IH; exact HF'.
Qed.

Lemma rest_shift_exists pl pl' os os' :
  Player.x pl' = Player.x pl -> Player.y pl' = Player.y pl ->
  Forall2 (shifted 0 0) os os' ->
  Exists (supports pl) os -> Exists (supports pl') os'.
Proof.
  intros Ex Ey H; induction H as [|o o' os os' Ho _ IH]; intro HE;
    inversion HE as [o1 os1 Hs|o1 os1 HE']; subst.
  - left; apply (supports_shift pl pl' o o'); assumption.
  - right; apply IH; exact HE'.
Qed.

Lemma lr_collisions_rest pl p os os' :
  Player.x p = Player.x pl -> Player.y p = Player.y pl ->
  Forall2 (shifted 0 0) os os' ->
  Forall (fun o => supports pl o \/ clear_of pl o) os ->
  lr_collisions p os' = [].
Proof.
  intros Ex Ey H; induction H as [|o o' os os' Ho _ IH]; intro HF; [reflexivity|].
  inversion HF as [|o1 os1 Hoo HF' Eq]; subst.
  unfold lr_collisions; simpl flat_map; fold (lr_collisions p os').
  rewrite (IH HF').
  assert (Hn : lr_hit p o' = None).
  { unfold lr_hit.
    destruct Hoo as [Hs|Hc].
    - rewrite (support_empty pl p o o'); auto.
    - rewrite (clear_empty pl p o o' 0); auto; unfold DECELERATION; lra. }
  rewrite Hn; reflexivity.
Qed.

(** At rest and without input, [update_from_input] zeroes [move_x] and
    applies one step of gravity. *)
Lemma update_from_input_at_rest pl inp :
  Player.move_x pl == 0 -> Player.move_y pl == 0 -> Player.jumping pl = false ->
  Vec2.x inp == 0 -> Vec2.y inp == 0 ->
  let p2 := Player.update_from_input pl inp in
  Player.move_x p2 = 0 /\ Player.move_y p2 == - DECELERATION /\
  Player.x p2 = Player.x pl /\ Player.y p2 = Player.y pl.
Proof.
  intros Hmx Hmy Hj Hix Hiy; cbv zeta.
  destruct (PlayerFacts.update_from_input_xy pl inp) as [X Y].
  split; [|split; [|split; assumption]].
  - rewrite Decel.update_from_input_no_input_move_x by exact Hix.
    destruct (Decel.decel_x_cases (Player.move_x pl)) as [(_ & E)|[(A & _)|(A & _)]];
      [exact E | unfold DECELERATION in A; lra | unfold DECELERATION in A; lra].
  - rewrite PlayerFacts.update_from_input_move_y; cbv zeta.
    rewrite PlayerFacts.horizontal_step_none by exact Hix; cbn [fst].
    destruct (PlayerFacts.speed_up_step_fields pl) as (_ & _ & _ & My & Jy).
    unfold Player.jump_step; rewrite Jy, Hj.
    destruct (Qlt_le_dec 0 (Vec2.y inp)) as [Hy|Hy]; [lra|].
    rewrite My; unfold PlayerFacts.gravity_y, MAX_FALL_SPEED, DECELERATION.
    destruct (Qlt_le_dec _ _); lra.
Qed.

(** One frame from rest: the player lands back where it was, the
    platforms come back to their places, and the state is again at rest. *)
Lemma frame_at_rest g :
  at_rest g ->
  at_rest (Game.update g) /\
  Player.x (Game.player (Game.update g)) = Player.x (Game.player g) /\
  Player.y (Game.player (Game.update g)) = Player.y (Game.player g) /\
  Forall2 (shifted 0 0) (Game.game_objects g) (Game.game_objects (Game.update g)).
Proof.
  intros (Hmx & Hmy & Hj & Hix & Hiy & HF & HE).
  destruct g as [pl os inp bg]; cbn [Game.player Game.game_objects Game.input_acceleration]
    in *.
  destruct (update_from_input_at_rest pl inp Hmx Hmy Hj Hix Hiy) as (F1 & F2 & F3 & F4).
  set (p2 := Player.update_from_input pl inp) in *.
  assert (E2 : GameFacts.phase_input (Game.mk pl os inp bg) = Game.mk p2 os inp bg).
  { unfold GameFacts.phase_input; cbn; rewrite map_update_id; reflexivity. }
  rewrite GameFacts.update_phases; cbv zeta.
  rewrite E2; cbn [Game.player].
  rewrite F1.
  set (g3 := Game.move_world (Game.mk p2 os inp bg) 0 0).
  assert (S3 : Forall2 (shifted 0 0) os (Game.game_objects g3))
    by exact (move_world_shifted (Game.mk p2 os inp bg) 0 0).
  assert (H3 : Game.collision_left_right g3 = g3).
  { unfold Game.collision_left_right.
    rewrite LeftRight.fold_left_right.
    change (Game.player g3) with p2.
    rewrite (lr_collisions_rest pl p2 os (Game.game_objects g3) F3 F4 S3 HF).
    reflexivity. }
  rewrite H3.
  change (Game.player g3) with p2.
  set (g5 := Game.move_world g3 0 (Player.move_y p2)).
  assert (S5 : Forall2 (shifted 0 (- DECELERATION)) os (Game.game_objects g5)).
  { apply (shifted_weaken (0 + 0) (0 + Player.move_y p2)); [| lra | lra].
    apply (shifted_trans _ _ _ _ _ (Game.game_objects g3)); [exact S3|].
    apply move_world_shifted. }
  unfold Game.collision_up_down.
  change (Game.player g5) with p2.
  pose proof (fold_rest pl p2 os (Game.game_objects g5) F3 F4 F2 S5 HF
                (false, 0, p2) (or_introl eq_refl) (or_introl HE)) as L.
  destruct (fold_left Game.up_down_body (Game.game_objects g5) (false, 0, p2))
    as [[c off] p'] eqn:Ef.
  destruct L as (Lc & Lo & Lmy & Lj & Lx & Ly & Lmx); cbn [fst snd] in *; subst c.
  set (g6 := Game.move_world (Game.set_player g5 p') 0 off).
  assert (S6 : Forall2 (shifted 0 0) os (Game.game_objects g6)).
  { apply (shifted_weaken (0 + 0) (- DECELERATION + off)); [| lra | lra].
    apply (shifted_trans _ _ _ _ _ (Game.game_objects g5)); [exact S5|].
    apply (move_world_shifted (Game.set_player g5 p')). }
  change (Game.player g6) with p'.
  destruct (PlayerFacts.update_after_collision_fields p') as (Ax & Ay & Amx & Amy & Aj & _).
  assert (Px : Player.x (Player.update_after_collision p') = Player.x pl) by congruence.
  assert (Py : Player.y (Player.update_after_collision p') = Player.y pl) by congruence.
  pose proof (rest_shift_forall pl (Player.update_after_collision p') os
                (Game.game_objects g6) Px Py S6 HF) as HF6.
  pose proof (rest_shift_exists pl (Player.update_after_collision p') os
                (Game.game_objects g6) Px Py S6 HE) as HE6.
  unfold at_rest; cbn [Game.player Game.game_objects Game.input_acceleration Game.set_player].
  repeat split; try assumption;
    first [rewrite Amx, Lmx, F1; reflexivity | rewrite Amy; exact Lmy | rewrite Aj; exact Lj].
Qed.

(** Closes a comparison between rational constants by evaluation. *)
Ltac qnum := vm_compute; first [reflexivity | let Hc := fresh in intro Hc; discriminate Hc].

Lemma rest_iter g :
  at_rest g -> forall k,
  let gk := Nat.iter k Game.update g in
  at_rest gk /\
  Player.x (Game.player gk) = Player.x (Game.player g) /\
  Player.y (Game.player gk) = Player.y (Game.player g) /\
  Forall2 (shifted 0 0) (Game.game_objects g) (Game.game_objects gk).
Proof.
  intros H k; induction k as [|k IH]; cbv zeta in *.
  - split; [exact H|]; split; [reflexivity|]; split; [reflexivity|]; apply shifted_refl.
  - destruct IH as (Ha & X & Y & Sh).
    destruct (frame_at_rest _ Ha) as (Ha' & X' & Y' & Sh').
    change (Nat.iter (S k) Game.update g) with (Game.update (Nat.iter k Game.update g)).
    split; [exact Ha'|]; split; [congruence|]; split; [congruence|].
    apply (shifted_weaken (0 + 0) (0 + 0)); [| lra | lra].
    apply (shifted_trans _ _ _ _ _ _ _ Sh Sh').
Qed.
End Resting.

(** C8: starting from a state where the player stands exactly on top of a
    platform (bottom edge on the platform's top edge, horizontal overlap at
    least the tolerance 0.1), with move_x = move_y = 0, jumping = false and
    no input, and where every other platform is clear of the player (beside
    it, above it, or at least DECELERATION below its feet), then after every
    number k of frame updates move_y is 0, jumping is false, the player has
    not moved and every platform is back at its place. *)
Theorem resting_player_stays g :
  at_rest g -> forall k,
  let gk := Nat.iter k Game.update g in
  Player.move_y (Game.player gk) == 0 /\ Player.jumping (Game.player gk) = false /\
  Player.x (Game.player gk) = Player.x (Game.player g) /\
  Player.y (Game.player gk) = Player.y (Game.player g) /\
  Forall2 (shifted 0 0) (Game.game_objects g) (Game.game_objects gk).
Proof.
  intros H k; cbv zeta.
  destruct (Resting.rest_iter g H k) as ((_ & Hmy & Hj & _) & X & Y & Sh).
  repeat split; assumption.
Qed.

Lemma resting_player_stays_witness :
  at_rest Game.new /\
  (let gk := Nat.iter 10 Game.update Game.new in
   Player.move_y (Game.player gk) == 0 /\ Player.jumping (Game.player gk) = false /\
   Player.x (Game.player gk) = Player.x (Game.player Game.new) /\
   Player.y (Game.player gk) = Player.y (Game.player Game.new) /\
   Forall2 (shifted 0 0) (Game.game_objects Game.new) (Game.game_objects gk)).
Proof.
  assert (H : at_rest Game.new).
  { unfold at_rest, Game.new, Game.move_world;
      cbn -[Qle Qeq Qplus Qmult Qopp Qminus Qdiv inject_Z Platform.move_world].
    repeat split; try Resting.qnum.
    - apply Forall_cons; [left; unfold supports; repeat split; Resting.qnum|].
      apply Forall_cons; [right; right; left; Resting.qnum|].
      apply Forall_cons; [right; right; left; Resting.qnum|].
      apply Forall_nil.
    - apply Exists_cons_hd; unfold supports; repeat split; Resting.qnum. }
  split; [exact H | exact (resting_player_stays Game.new H 10)].
Defined.
(** * Facts about drawing *)

Module DrawFacts.
Import Draw.

(** The calls made by a sequence of calls, up to and including the first
    one the backend refuses. *)
Fixpoint upto_fail (ok : Call -> bool) (l : list Call) : list Call :=
  match l with
  | [] => []
  | c :: l' => c :: (if ok c then upto_fail ok l' else [])
  end.

(** The [graphics::draw] calls of [draw_tiles], in the order of the loops. *)
Definition tile_calls (image : Image) (x y : Q) (width_segments height_segments : Z)
  : list Call :=
  flat_map (fun iy =>
    map (fun ix => DrawImage image
                     (default_param (x + inject_Z ix * TILE_SIZE, y + inject_Z iy * TILE_SIZE)))
        (range width_segments))
    (range height_segments).

Lemma for_each_call l ok tr :
  for_each l call ok tr = (if forallb ok l then Some tt else None, tr ++ upto_fail ok l).
Proof.
  revert tr; induction l as [|c l IH]; intro tr.
  - simpl; rewrite app_nil_r; reflexivity.
  - cbn [for_each forallb upto_fail]; unfold bind, call.
    destruct (ok c); cbn [andb].
    + rewrite IH, <- app_assoc; reflexivity.
    + reflexivity.
Qed.

Lemma for_each_map {A} (f : A -> Call) l :
  for_each (map f l) call = for_each l (fun a => call (f a)).
Proof. induction l as [|a l IH]; [reflexivity|]; simpl; rewrite IH; reflexivity. Qed.

Lemma for_each_app {A} (l1 l2 : list A) body ok tr :
  for_each (l1 ++ l2) body ok tr = bind (for_each l1 body) (fun _ => for_each l2 body) ok tr.
Proof.
  revert tr; induction l1 as [|a l1 IH]; intro tr; [reflexivity|].
  cbn [app for_each].
  transitivity (match body a ok tr with
                | (Some _, tr') => bind (for_each l1 body) (fun _ => for_each l2 body) ok tr'
                | (None, tr') => (None, tr')
                end).
  - unfold bind at 1; destruct (body a ok tr) as [[u|] tr']; [apply IH | reflexivity].
  - unfold bind; destruct (body a ok tr) as [[u|] tr']; reflexivity.
Qed.

Lemma for_each_nested {A B} (l : list A) (l' : list B) (f : A -> B -> Call) ok tr :
  for_each l (fun a => for_each l' (fun b => call (f a b))) ok tr =
  for_each (flat_map (fun a => map (f a) l') l) call ok tr.
Proof.
  revert tr; induction l as [|a l IH]; intro tr; [reflexivity|].
  cbn [for_each flat_map]; rewrite for_each_app, for_each_map.
  unfold bind; destruct (for_each l' (fun b => call (f a b)) ok tr) as [[u|] tr'];
    [apply IH | reflexivity].
Qed.

Lemma draw_tiles_run image x y ws hs ok tr :
  GameDraw.draw_tiles image x y ws hs ok tr =
  (if forallb ok (tile_calls image x y ws hs) then Some tt else None,
   tr ++ upto_fail ok (tile_calls image x y ws hs)).
Proof.
  unfold GameDraw.draw_tiles, bind at 1.
  rewrite (for_each_nested _ _
    (fun iy ix => DrawImage image
       (default_param (x + inject_Z ix * TILE_SIZE, y + inject_Z iy * TILE_SIZE)))).
  rewrite for_each_call; unfold tile_calls.
  destruct (forallb _ _); reflexivity.
Qed.

Lemma upto_fail_all ok l : forallb ok l = true -> upto_fail ok l = l.
Proof.
  induction l as [|c l IH]; [reflexivity|]; cbn [forallb upto_fail].
  intro H; apply andb_prop in H as [H1 H2]; rewrite H1, IH by exact H2; reflexivity.
Qed.

Lemma upto_fail_split ok l :
  forallb ok l = false ->
  exists pre c post, l = pre ++ c :: post /\ forallb ok pre = true /\ ok c = false /\
                     upto_fail ok l = pre ++ [c].
Proof.
  induction l as [|c l IH]; [discriminate|]; cbn [forallb upto_fail].
  destruct (ok c) eqn:Ec; cbn [andb]; intro H.
  - destruct (IH H) as (pre & c' & post & E & P & Oc & U).
    exists (c :: pre), c', post; cbn; rewrite Ec, P, U, E; repeat split; assumption.
  - exists [], c, l; repeat split; assumption.
Qed.

Lemma range_length n : length (range n) = Z.to_nat n.
Proof. unfold range; rewrite length_map, length_seq; reflexivity. Qed.

Lemma nth_error_seq_lt s n k : (k < n)%nat -> nth_error (seq s n) k = Some (s + k)%nat.
Proof.
  revert s k; induction n as [|n IH]; intros s k H; [lia|].
  destruct k as [|k]; cbn [seq nth_error]; [f_equal; lia|].
  rewrite IH by lia; f_equal; lia.
Qed.

Lemma nth_error_range n i :
  (0 <= i < n)%Z -> nth_error (range n) (Z.to_nat i) = Some i.
Proof.
  intro H; unfold range; rewrite nth_error_map, nth_error_seq_lt by lia.
  cbn [option_map]; f_equal; lia.
Qed.

Lemma nth_error_flat_map {A B} (g : A -> list B) m l i j :
  (forall a, length (g a) = m) -> (j < m)%nat ->
  nth_error (flat_map g l) (i * m + j) =
  match nth_error l i with Some a => nth_error (g a) j | None => None end.
Proof.
  intros Hm Hj; revert i; induction l as [|a l IH]; intro i.
  - cbn [flat_map]; destruct (i * m + j)%nat, i; reflexivity.
  - cbn [flat_map]; destruct i as [|i].
    + cbn [nth_error]; rewrite nth_error_app1 by (rewrite Hm; lia); f_equal; lia.
    + rewrite nth_error_app2 by (rewrite Hm; lia).
      rewrite Hm; replace (S i * m + j - m)%nat with (i * m + j)%nat by lia.
      apply IH.
Qed.

Lemma length_flat_map_const {A B} (g : A -> list B) m l :
  (forall a, length (g a) = m) -> length (flat_map g l) = (length l * m)%nat.
Proof.
  intro Hm; induction l as [|a l IH]; [reflexivity|].
  cbn [flat_map length]; rewrite length_app, Hm, IH; lia.
Qed.

Lemma tile_calls_length image x y ws hs :
  length (tile_calls image x y ws hs) = (Z.to_nat hs * Z.to_nat ws)%nat.
Proof.
  unfold tile_calls; rewrite (length_flat_map_const _ (Z.to_nat ws)).
  - rewrite range_length; reflexivity.
  - intro a; rewrite length_map, range_length; reflexivity.
Qed.

Lemma tile_calls_nth image x y ws hs ix iy :
  (0 <= ix < ws)%Z -> (0 <= iy < hs)%Z ->
  nth_error (tile_calls image x y ws hs) (Z.to_nat (iy * ws + ix)) =
  Some (DrawImage image
          (default_param (x + inject_Z ix * TILE_SIZE, y + inject_Z iy * TILE_SIZE))).
Proof.
  intros Hx Hy; unfold tile_calls.
  replace (Z.to_nat (iy * ws + ix)) with (Z.to_nat iy * Z.to_nat ws + Z.to_nat ix)%nat by lia.
  rewrite (nth_error_flat_map _ (Z.to_nat ws)).
  - rewrite nth_error_range by lia.
    rewrite nth_error_map, nth_error_range by lia; reflexivity.
  - intro a; rewrite length_map, range_length; reflexivity.
  - lia.
Qed.

Lemma tile_calls_in image x y ws hs ix iy :
  (0 <= ix < ws)%Z -> (0 <= iy < hs)%Z ->
  In (DrawImage image
        (default_param (x + inject_Z ix * TILE_SIZE, y + inject_Z iy * TILE_SIZE)))
     (tile_calls image x y ws hs).
Proof.
  intros Hx Hy; apply (nth_error_In _ (Z.to_nat (iy * ws + ix))).
  apply tile_calls_nth; assumption.
Qed.
End DrawFacts.

(** The drawing calls of one [Game::draw] after [clear]: the 18 x 12
    background grid, the tiles of each platform in list order, the player. *)
Definition frame_draws (g : Game.t) : list Draw.Call :=
  let bg := Game.background_offset g in
  DrawFacts.tile_calls Draw.BackgroundImage
    (f32_rem (Vec2.x bg) TILE_SIZE - TILE_SIZE) (f32_rem (Vec2.y bg) TILE_SIZE - TILE_SIZE) 18 12 ++
  flat_map (fun o => DrawFacts.tile_calls Draw.PlatformImage (Platform.x o) (Platform.y o)
                       (Platform.width_segments o) (Platform.height_segments o))
           (Game.game_objects g) ++
  [Draw.DrawImage Draw.PlayerImage
     (Draw.mkParam (Player.x (Game.player g) + TILE_SIZE / 2, Player.y (Game.player g) + TILE_SIZE / 2)
                   (Player.rotation (Game.player g)) (1 # 2, 1 # 2))].

(** ... followed by [present]. *)
Definition frame_calls (g : Game.t) : list Draw.Call := frame_draws g ++ [Draw.Present].

Module FrameFacts.
Import Draw DrawFacts.

(** [m] makes the calls [l], stopping at the first one that fails. *)
Definition runs (m : M unit) (l : list Call) : Prop :=
  forall ok tr, m ok tr = (if forallb ok l then Some tt else None, tr ++ upto_fail ok l).

Lemma upto_fail_app ok l1 l2 :
  upto_fail ok (l1 ++ l2) = if forallb ok l1 then l1 ++ upto_fail ok l2 else upto_fail ok l1.
Proof.
  induction l1 as [|c l1 IH]; [reflexivity|]; cbn [app upto_fail forallb].
  destruct (ok c); cbn [andb]; [rewrite IH; destruct (forallb ok l1)|]; reflexivity.
Qed.

Lemma runs_ret : runs (ret tt) [].
Proof. intros ok tr; cbn; rewrite app_nil_r; reflexivity. Qed.

Lemma runs_call c : runs (call c) [c].
Proof. intros ok tr; unfold call; cbn; destruct (ok c); reflexivity. Qed.

Lemma runs_bind m k l1 l2 : runs m l1 -> runs k l2 -> runs (bind m (fun _ => k)) (l1 ++ l2).
Proof.
  intros H1 H2 ok tr; unfold bind; rewrite H1.
  rewrite forallb_app, upto_fail_app.
  destruct (forallb ok l1) eqn:E1; cbn [andb].
  - rewrite H2, app_assoc, (upto_fail_all ok l1 E1); reflexivity.
  - reflexivity.
Qed.

Lemma runs_for_each {A} (l : list A) body f :
  (forall a, runs (body a) (f a)) -> runs (for_each l body) (flat_map f l).
Proof.
  intro H; induction l as [|a l IH]; [exact runs_ret|].
  cbn [for_each flat_map]; apply runs_bind; [apply H | exact IH].
Qed.

Lemma runs_draw_tiles image x y ws hs :
  runs (GameDraw.draw_tiles image x y ws hs) (tile_calls image x y ws hs).
Proof. intros ok tr; apply draw_tiles_run. Qed.

Lemma background_dims :
  i32_add (Z.quot (f32_as_i32 SCREEN_WIDTH) (f32_as_i32 TILE_SIZE)) 3 = 18%Z /\
  i32_add (Z.quot (f32_as_i32 SCREEN_HEIGHT) (f32_as_i32 TILE_SIZE)) 2 = 12%Z.
Proof. split; vm_compute; reflexivity. Qed.

Lemma game_draw_runs g ok :
  GameDraw.game_draw g ok [] =
  (if forallb ok (frame_calls g) then Some tt else None, Clear :: upto_fail ok (frame_calls g)).
Proof.
  unfold GameDraw.game_draw, frame_calls, frame_draws; rewrite <- !app_assoc.
  destruct background_dims as [Ew Eh].
  change (bind clear ?k ok []) with (k tt ok [Clear]); cbv beta.
  apply runs_bind.
  - unfold GameDraw.draw_background; cbv zeta; cbn [Vec2.x Vec2.y]; rewrite Ew, Eh.
    apply runs_draw_tiles.
  - apply runs_bind.
    + apply runs_for_each; intro o; apply runs_draw_tiles.
    + apply (runs_bind _ _ [_] [Present]); [apply runs_call | apply runs_call].
Qed.

Lemma forallb_true {A} (l : list A) : forallb (fun _ => true) l = true.
Proof. induction l; [reflexivity | exact IHl]. Qed.

Lemma upto_fail_last ok pre c :
  ~ In c pre -> In c (upto_fail ok (pre ++ [c])) -> forallb ok pre = true.
Proof.
  induction pre as [|a pre IH]; intros Hn Hin; [reflexivity|].
  cbn [app upto_fail forallb] in *.
  destruct (ok a); cbn [andb].
  - apply IH; [intro H; apply Hn; right; exact H|].
    destruct Hin as [E|H]; [exfalso; apply Hn; left; exact E | exact H].
  - exfalso; destruct Hin as [E|[]]; apply Hn; left; exact E.
Qed.

End FrameFacts.

(** X1: when every call succeeds, [draw_tiles] returns [Ok] after drawing
    [max 0 height_segments * max 0 width_segments] tiles, row by row: the
    tile of column [ix] and row [iy] is the [(iy * width_segments + ix)]-th
    call and is drawn at [(x + ix * TILE_SIZE, y + iy * TILE_SIZE)]. *)
Theorem draw_tiles_grid image x y ws hs tr :
  GameDraw.draw_tiles image x y ws hs (fun _ => true) tr =
    (Some tt, tr ++ DrawFacts.tile_calls image x y ws hs) /\
  length (DrawFacts.tile_calls image x y ws hs) = (Z.to_nat hs * Z.to_nat ws)%nat /\
  (forall ix iy, (0 <= ix < ws)%Z -> (0 <= iy < hs)%Z ->
     nth_error (DrawFacts.tile_calls image x y ws hs) (Z.to_nat (iy * ws + ix)) =
     Some (Draw.DrawImage image
             (Draw.default_param (x + inject_Z ix * TILE_SIZE, y + inject_Z iy * TILE_SIZE)))).
Proof.
  split; [|split].
  - rewrite DrawFacts.draw_tiles_run, FrameFacts.forallb_true, DrawFacts.upto_fail_all
      by apply FrameFacts.forallb_true.
    reflexivity.
  - apply DrawFacts.tile_calls_length.
  - intros ix iy Hx Hy; apply DrawFacts.tile_calls_nth; assumption.
Qed.

(** X2: when a [graphics::draw] call fails, [draw_tiles] returns [Err] at
    once: the calls made are the tiles before the first failing one, all
    successful, and that failing call; no later tile is drawn. *)
Theorem draw_tiles_stops_at_first_failure image x y ws hs ok tr :
  forallb ok (DrawFacts.tile_calls image x y ws hs) = false ->
  exists pre c post,
    DrawFacts.tile_calls image x y ws hs = pre ++ c :: post /\
    forallb ok pre = true /\ ok c = false /\
    GameDraw.draw_tiles image x y ws hs ok tr = (None, tr ++ pre ++ [c]).
Proof.
  intro H.
  destruct (DrawFacts.upto_fail_split ok _ H) as (pre & c & post & E & P & Oc & U).
  exists pre, c, post; repeat split; try assumption.
  rewrite DrawFacts.draw_tiles_run, H, U; reflexivity.
Qed.

Lemma draw_tiles_stops_at_first_failure_witness :
  forallb (fun _ => false) (DrawFacts.tile_calls Draw.PlatformImage 0 0 2 1) = false /\
  exists pre c post,
    DrawFacts.tile_calls Draw.PlatformImage 0 0 2 1 = pre ++ c :: post /\
    forallb (fun _ => false) pre = true /\ (fun _ => false) c = false /\
    GameDraw.draw_tiles Draw.PlatformImage 0 0 2 1 (fun _ => false) [] = (None, [] ++ pre ++ [c]).
Proof.
  assert (H : forallb (fun _ => false) (DrawFacts.tile_calls Draw.PlatformImage 0 0 2 1) = false)
    by (vm_compute; reflexivity).
  split; [exact H | exact (draw_tiles_stops_at_first_failure _ _ _ _ _ _ [] H)].
Defined.

(** X4: [Game::draw] clears the screen, then makes the calls of
    [frame_calls] (background grid, platforms in list order, player, then
    [present]) until the first one that fails; it returns [Ok] exactly when
    none fails. *)
Theorem game_draw_order g ok :
  GameDraw.game_draw g ok [] =
  (if forallb ok (frame_calls g) then Some tt else None,
   Draw.Clear :: DrawFacts.upto_fail ok (frame_calls g)).
Proof. apply FrameFacts.game_draw_runs. Qed.

(** X5: [Game::draw] calls [present] only after every drawing call of the
    frame has been made and has succeeded: a failing call never leaves a
    partly drawn frame on screen. *)
Theorem game_draw_presents_whole_frame g ok :
  In Draw.Present (snd (GameDraw.game_draw g ok [])) ->
  snd (GameDraw.game_draw g ok []) = Draw.Clear :: frame_calls g /\
  forallb ok (frame_draws g) = true.
Proof.
  rewrite FrameFacts.game_draw_runs; cbn [snd].
  intros [E|Hin]; [discriminate E|].
  assert (Hn : ~ In Draw.Present (frame_draws g)).
  { unfold frame_draws; rewrite !in_app_iff; intros [H|[H|H]].
    - unfold DrawFacts.tile_calls in H; apply in_flat_map in H as (iy & _ & H);
        apply in_map_iff in H as (ix & E & _); discriminate E.
    - apply in_flat_map in H as (o & _ & H); unfold DrawFacts.tile_calls in H;
        apply in_flat_map in H as (iy & _ & H); apply in_map_iff in H as (ix & E & _);
        discriminate E.
    - destruct H as [E|[]]; discriminate E. }
  unfold frame_calls in Hin |- *.
  pose proof (FrameFacts.upto_fail_last ok (frame_draws g) Draw.Present Hn Hin) as P.
  rewrite FrameFacts.upto_fail_app, P; cbn [DrawFacts.upto_fail].
  split; [destruct (ok Draw.Present); reflexivity | reflexivity].
Qed.

Lemma game_draw_presents_whole_frame_witness :
  let g := Game.mk (Player.new 224 144) [Platform.mk 0 176 2 1] (Vec2.new 0 0) (Vec2.new 0 0) in
  In Draw.Present (snd (GameDraw.game_draw g (fun _ => true) [])) /\
  snd (GameDraw.game_draw g (fun _ => true) []) = Draw.Clear :: frame_calls g /\
  forallb (fun _ => true) (frame_draws g) = true.
Proof.
  intro g.
  assert (H : In Draw.Present (snd (GameDraw.game_draw g (fun _ => true) [])))
    by (vm_compute; repeat (first [left; reflexivity | right])).
  split; [exact H | exact (game_draw_presents_whole_frame g (fun _ => true) H)].
Defined.

(** The world moved by [(dx, dy)] from [g] to [g']: every platform shifted,
    and the background by a quarter of the shift. *)
Definition world_moved (dx dy : Q) (g g' : Game.t) : Prop :=
  Forall2 (shifted dx dy) (Game.game_objects g) (Game.game_objects g') /\
  Vec2.x (Game.background_offset g') == Vec2.x (Game.background_offset g) + dx * (25 # 100) /\
  Vec2.y (Game.background_offset g') == Vec2.y (Game.background_offset g) + dy * (25 # 100).

(** [platform] overlaps the player [p] beyond tolerance. *)
Definition overlaps (p : Player.t) (platform : Platform.t) : Prop :=
  rect_is_empty_with_tolerance (rect_intersection (Platform.rect platform) (Player.rect p)) = false.

Module ExtraFacts.

(** ** Geometry *)

Lemma f32_max_comm a b : f32_max a b == f32_max b a.
Proof. unfold f32_max; split_ifs; lra. Qed.

Lemma f32_min_comm a b : f32_min a b == f32_min b a.
Proof. unfold f32_min; split_ifs; lra. Qed.

Lemma tolerance_test_eqv x y w h x' y' w' h' :
  x == x' -> y == y' -> w == w' -> h == h' ->
  rect_eqv
    (if Qlt_le_dec w RECT_TOLERANCE then Rect.zero
     else if Qlt_le_dec h RECT_TOLERANCE then Rect.zero else Rect.new x y w h)
    (if Qlt_le_dec w' RECT_TOLERANCE then Rect.zero
     else if Qlt_le_dec h' RECT_TOLERANCE then Rect.zero else Rect.new x' y' w' h').
Proof.
  intros Hx Hy Hw Hh.
  split_ifs; unfold rect_eqv, Rect.zero; cbn [Rect.x Rect.y Rect.w Rect.h];
    repeat split; try reflexivity; try assumption; lra.
Qed.

(** ** The player's phase [alpha] *)

Lemma speed_up_step_alpha p : Player.alpha (Player.speed_up_step p) = Player.alpha p.
Proof. unfold Player.speed_up_step; split_ifs; reflexivity. Qed.

Lemma horizontal_step_alpha c i p : Player.alpha (fst (Player.horizontal_step c i p)) = Player.alpha p.
Proof. unfold Player.horizontal_step; split_ifs; reflexivity. Qed.

Lemma jump_step_alpha i p : Player.alpha (Player.jump_step i p) = Player.alpha p.
Proof. unfold Player.jump_step; split_ifs; reflexivity. Qed.

Lemma decel_step_alpha b p : Player.alpha (Player.decel_step b p) = Player.alpha p.
Proof. unfold Player.decel_step; split_ifs; reflexivity. Qed.

Lemma update_from_input_alpha p i :
  Player.alpha (Player.update_from_input p i) =
  let a := Player.alpha p + (7 # 100) in if Qlt_le_dec F32_PI a then a - F32_PI else a.
Proof.
  unfold Player.update_from_input.
  pose proof (horizontal_step_alpha (Player.current_max_speed (Player.speed_up_step p)) i
                (Player.speed_up_step p)) as H.
  destruct (Player.horizontal_step _ _ _) as [p2 b]; cbn [fst] in H.
  unfold Player.alpha_step; cbn [Player.alpha Player.set_alpha].
  unfold Player.gravity_step; cbn [Player.alpha Player.set_jumping Player.set_move_y].
  rewrite decel_step_alpha, jump_step_alpha, H, speed_up_step_alpha; reflexivity.
Qed.

Lemma up_down_body_alpha acc o :
  Player.alpha (snd (Game.up_down_body acc o)) = Player.alpha (snd acc).
Proof. destruct acc as [[c off] pl]; unfold Game.up_down_body; split_ifs; reflexivity. Qed.

Lemma up_down_fold_alpha os acc :
  Player.alpha (snd (fold_left Game.up_down_body os acc)) = Player.alpha (snd acc).
Proof.
  revert acc; induction os as [|o os IH]; intro acc; [reflexivity|].
  cbn [fold_left]; rewrite IH; apply up_down_body_alpha.
Qed.

Lemma collision_up_down_alpha g :
  Player.alpha (Game.player (Game.collision_up_down g)) = Player.alpha (Game.player g).
Proof.
  unfold Game.collision_up_down.
  pose proof (up_down_fold_alpha (Game.game_objects g) (false, 0, Game.player g)) as H.
  destruct (fold_left _ _ _) as [[c off] pl]; cbn [snd] in H.
  destruct c; exact H.
Qed.

Lemma collision_left_right_alpha g :
  Player.alpha (Game.player (Game.collision_left_right g)) = Player.alpha (Game.player g).
Proof.
  destruct (GameFacts.collision_left_right_player g) as [E|E]; rewrite E; reflexivity.
Qed.

Lemma update_alpha g :
  Player.alpha (Game.player (Game.update g)) =
  Player.alpha (Player.update_from_input (Game.player g) (Game.input_acceleration g)).
Proof.
  rewrite GameFacts.update_phases; cbv zeta.
  cbn [Game.player Game.set_player].
  unfold Player.update_after_collision; cbn [Player.alpha Player.set_rotation].
  rewrite collision_up_down_alpha; cbn [Game.player Game.move_world].
  rewrite collision_left_right_alpha; reflexivity.
Qed.

(** ** Moves of the world *)

Lemma world_moved_refl g g' :
  Game.game_objects g' = Game.game_objects g ->
  Game.background_offset g' = Game.background_offset g -> world_moved 0 0 g g'.
Proof.
  intros Eo Eb; unfold world_moved; rewrite Eo, Eb; split; [apply Resting.shifted_refl|].
  split; lra.
Qed.

Lemma world_moved_move_world g a b : world_moved a b g (Game.move_world g a b).
Proof.
  split; [apply Resting.move_world_shifted|]; cbn; split; reflexivity.
Qed.

Lemma world_moved_collision_up_down g :
  exists dy, world_moved 0 dy g (Game.collision_up_down g).
Proof.
  unfold Game.collision_up_down.
  destruct (fold_left _ _ _) as [[[|] off] pl].
  - exists off; apply (world_moved_move_world (Game.set_player g pl)).
  - exists 0; apply world_moved_refl; reflexivity.
Qed.

(** ** The input vector *)

Lemma collision_left_right_input g :
  Game.input_acceleration (Game.collision_left_right g) = Game.input_acceleration g.
Proof. unfold Game.collision_left_right; destruct (fold_left _ _ _) as [[|] off]; reflexivity. Qed.

Lemma collision_up_down_input g :
  Game.input_acceleration (Game.collision_up_down g) = Game.input_acceleration g.
Proof.
  unfold Game.collision_up_down; destruct (fold_left _ _ _) as [[[|] off] pl]; reflexivity.
Qed.

Lemma update_input g : Game.input_acceleration (Game.update g) = Game.input_acceleration g.
Proof.
  rewrite GameFacts.update_phases; cbv zeta; cbn [Game.input_acceleration Game.set_player].
  rewrite collision_up_down_input; cbn [Game.input_acceleration Game.move_world].
  rewrite collision_left_right_input; reflexivity.
Qed.

(** ** [collision_up_down] on the player *)

Definition ud_inv (p0 : Player.t) (L : list Platform.t) (pl : Player.t) : Prop :=
  Player.x pl = Player.x p0 /\ Player.y pl = Player.y p0 /\
  Player.move_x pl = Player.move_x p0 /\ Player.alpha pl = Player.alpha p0 /\
  Player.rotation pl = Player.rotation p0 /\
  Player.speed_up_counter pl = Player.speed_up_counter p0 /\
  (Player.move_y pl = Player.move_y p0 \/ Player.move_y pl = 0) /\
  (Player.jumping pl = Player.jumping p0 \/
   (Player.jumping pl = false /\ Exists (overlaps p0) L)).

Lemma ud_inv_init p0 L : ud_inv p0 L p0.
Proof. repeat split; auto. Qed.

Lemma ud_inv_body p0 L acc o :
  In o L -> ud_inv p0 L (snd acc) -> ud_inv p0 L (snd (Game.up_down_body acc o)).
Proof.
  destruct acc as [[c off] pl]; cbn [snd]; intros Hin Hinv.
  assert (Er : Player.rect pl = Player.rect p0)
    by (destruct Hinv as (Ex & Ey & _); unfold Player.rect; rewrite Ex, Ey; reflexivity).
  assert (Hov : overlaps p0 o -> Exists (overlaps p0) L)
    by (intro H; apply Exists_exists; exists o; split; assumption).
  destruct Hinv as (Ex & Ey & Emx & Ea & Er' & Ec & Emy & Ej).
  unfold Game.up_down_body; cbn [GameObject.is_platform Platform_GameObject Platform.is_platform].
  rewrite Er.
  destruct (rect_is_empty_with_tolerance _) eqn:He.
  - repeat split; assumption.
  - specialize (Hov He).
    split_ifs; cbn [snd Player.x Player.y Player.move_x Player.alpha Player.rotation
                    Player.speed_up_counter Player.move_y Player.jumping
                    Player.set_move_y Player.set_jumping];
      repeat split; try assumption; auto.
Qed.

Lemma ud_inv_fold p0 L os :
  (forall o, In o os -> In o L) ->
  forall acc, ud_inv p0 L (snd acc) -> ud_inv p0 L (snd (fold_left Game.up_down_body os acc)).
Proof.
  induction os as [|o os IH]; intros Hs acc H; [exact H|].
  cbn [fold_left]; apply IH; [intros o' Ho; apply Hs; right; exact Ho|].
  apply ud_inv_body; [apply Hs; left; reflexivity | exact H].
Qed.
(** [alpha] after [n] frames follows its own recurrence. *)
Lemma iter_update_alpha n g :
  Player.alpha (Game.player (Nat.iter n Game.update g)) =
  Nat.iter n (fun a => let a' := a + (7 # 100) in
                       if Qlt_le_dec F32_PI a' then a' - F32_PI else a')
    (Player.alpha (Game.player g)).
Proof.
  induction n as [|n IH]; [reflexivity|].
  rewrite !Nat.iter_succ, update_alpha, update_from_input_alpha, IH; reflexivity.
Qed.

Lemma reachable_iter n g :
  Game.reachable g -> Game.reachable (Nat.iter n Game.update g).
Proof.
  intro H; induction n as [|n IH]; [exact H|].
  rewrite Nat.iter_succ; apply Game.reachable_update; exact IH.
Qed.
End ExtraFacts.

(** X6: [rect_intersection] is symmetric: [rect_intersection a b] and
    [rect_intersection b a] have the same position and size. *)
Theorem rect_intersection_comm a b :
  rect_eqv (rect_intersection a b) (rect_intersection b a).
Proof.
  unfold rect_intersection; cbv zeta; cbn [Rect.w Rect.h].
  pose proof (ExtraFacts.f32_max_comm (Rect.left a) (Rect.left b)).
  pose proof (ExtraFacts.f32_max_comm (Rect.top a) (Rect.top b)).
  pose proof (ExtraFacts.f32_min_comm (Rect.right a) (Rect.right b)).
  pose proof (ExtraFacts.f32_min_comm (Rect.bottom a) (Rect.bottom b)).
  apply ExtraFacts.tolerance_test_eqv; lra.
Qed.

(** X7: [rect_is_empty_with_tolerance] reports the result of
    [rect_intersection] empty exactly when that result is [Rect::zero]; a
    result it reports non-empty is at least [RECT_TOLERANCE] wide and
    high. *)
Theorem rect_intersection_empty_iff_zero a b :
  (rect_is_empty_with_tolerance (rect_intersection a b) = true <->
   rect_intersection a b = Rect.zero) /\
  (rect_is_empty_with_tolerance (rect_intersection a b) = false ->
   RECT_TOLERANCE <= Rect.w (rect_intersection a b) /\
   RECT_TOLERANCE <= Rect.h (rect_intersection a b)).
Proof.
  destruct (rect_intersection_zero_or_wide a b) as [Z|[Hw Hh]].
  - rewrite Z; split; [split; reflexivity | intro H; discriminate H].
  - rewrite (rect_is_empty_wide _ Hw Hh); split; [|intros _; split; assumption].
    split; [intro H; discriminate H|].
    intro Z; rewrite Z in Hw; exfalso; vm_compute in Hw; apply Hw; reflexivity.
Qed.

(** X8: in every state reachable from [Game::new], the player's phase
    [alpha] lies in [(0, PI]]. *)
Theorem reachable_alpha_range g :
  Game.reachable g -> 0 < Player.alpha (Game.player g) <= F32_PI.
Proof.
  induction 1 as [|g _ IH|g k _ IH|g k _ IH].
  - vm_compute; split; [reflexivity | discriminate].
  - rewrite ExtraFacts.update_alpha, ExtraFacts.update_from_input_alpha; cbv zeta.
    destruct IH as [H1 H2].
    destruct (Qlt_le_dec F32_PI _) as [H|H]; split;
      try lra; unfold F32_PI in *; lra.
  - rewrite GameFacts.key_down_event_player; exact IH.
  - rewrite GameFacts.key_up_event_player; exact IH.
Qed.

Lemma reachable_alpha_range_witness :
  Game.reachable (Nat.iter 31 Game.update Game.new) /\
  F32_PI < Player.alpha (Game.player (Nat.iter 30 Game.update Game.new)) + (7 # 100) /\
  Player.alpha (Game.player (Nat.iter 31 Game.update Game.new)) < 1 # 10 /\
  0 < Player.alpha (Game.player (Nat.iter 31 Game.update Game.new)) <= F32_PI.
Proof.
  assert (H : Game.reachable (Nat.iter 31 Game.update Game.new))
    by (apply ExtraFacts.reachable_iter; exact Game.reachable_new).
  split; [exact H|].
  rewrite !ExtraFacts.iter_update_alpha.
  split; [vm_compute; reflexivity|].
  split; [vm_compute; reflexivity|].
  rewrite <- ExtraFacts.iter_update_alpha.
  exact (reachable_alpha_range _ H).
Defined.

(** X11: in every state reachable from [Game::new], the input vector is one
    the key handlers write: [x] is [-1], [0] or [1], and [y] is [0] or [1]. *)
Theorem reachable_input_values g :
  Game.reachable g ->
  (Vec2.x (Game.input_acceleration g) = -1 \/ Vec2.x (Game.input_acceleration g) = 0 \/
   Vec2.x (Game.input_acceleration g) = 1) /\
  (Vec2.y (Game.input_acceleration g) = 0 \/ Vec2.y (Game.input_acceleration g) = 1).
Proof.
  induction 1 as [|g _ IH|g k _ IH|g k _ IH].
  - split; [right; left | left]; reflexivity.
  - rewrite ExtraFacts.update_input; exact IH.
  - destruct IH as [Hx Hy]; destruct k; cbn; auto.
  - destruct IH as [Hx Hy]; destruct k; cbn; auto.
Qed.

Lemma reachable_input_values_witness :
  Game.reachable (Game.key_down_event Game.new Game.Left) /\
  (Vec2.x (Game.input_acceleration (Game.key_down_event Game.new Game.Left)) = -1 \/
   Vec2.x (Game.input_acceleration (Game.key_down_event Game.new Game.Left)) = 0 \/
   Vec2.x (Game.input_acceleration (Game.key_down_event Game.new Game.Left)) = 1) /\
  (Vec2.y (Game.input_acceleration (Game.key_down_event Game.new Game.Left)) = 0 \/
   Vec2.y (Game.input_acceleration (Game.key_down_event Game.new Game.Left)) = 1).
Proof.
  assert (H : Game.reachable (Game.key_down_event Game.new Game.Left))
    by (apply Game.reachable_key_down; exact Game.reachable_new).
  split; [exact H | exact (reachable_input_values _ H)].
Defined.

(** X13: [collision_up_down] moves the world only vertically, by a single
    offset; it leaves the player's position, [move_x], [alpha], [rotation]
    and boost counter unchanged; it keeps [move_y] or sets it to 0; and it
    never sets [jumping]: it keeps it, or clears it only when some platform
    overlaps the player beyond tolerance. *)
Theorem collision_up_down_effects g :
  let p := Game.player g in
  let p' := Game.player (Game.collision_up_down g) in
  (exists dy,
     Forall2 (shifted 0 dy) (Game.game_objects g) (Game.game_objects (Game.collision_up_down g)) /\
     Vec2.x (Game.background_offset (Game.collision_up_down g)) ==
       Vec2.x (Game.background_offset g) /\
     Vec2.y (Game.background_offset (Game.collision_up_down g)) ==
       Vec2.y (Game.background_offset g) + dy * (25 # 100)) /\
  Player.x p' = Player.x p /\ Player.y p' = Player.y p /\
  Player.move_x p' = Player.move_x p /\ Player.alpha p' = Player.alpha p /\
  Player.rotation p' = Player.rotation p /\
  Player.speed_up_counter p' = Player.speed_up_counter p /\
  (Player.move_y p' = Player.move_y p \/ Player.move_y p' = 0) /\
  (Player.jumping p' = Player.jumping p \/
   (Player.jumping p' = false /\ Exists (overlaps p) (Game.game_objects g))).
Proof.
  cbv zeta; split.
  - destruct (ExtraFacts.world_moved_collision_up_down g) as [dy (S & X & Y)].
    exists dy; split; [exact S | split; [lra | exact Y]].
  - pose proof (ExtraFacts.ud_inv_fold (Game.player g) (Game.game_objects g) (Game.game_objects g)
                  (fun o H => H) (false, 0, Game.player g) (ExtraFacts.ud_inv_init _ _)) as H.
    unfold Game.collision_up_down.
    destruct (fold_left _ _ _) as [[c off] pl]; cbn [snd] in H.
    destruct c; exact H.
Qed.
